(** * Balanced sequence generator: a shallow embedding of
    [balanced_sequence_generator.py] and the properties of its core.

    Modelling choices.
    - The matrix of the generator, a numpy 2-D array of [float64], is a
      list of rows of rationals ([list (list Q)]): every finite [float64]
      is a rational, and comparisons ([==], [np.nonzero], [np.min]) and
      [math.ceil] are exact on them; they go through [Qeq_bool],
      [Qle_bool] and [Qceiling] and compare values, not representations.
    - The two process-wide generators ([np.random] and Python's [random])
      are two streams [nat -> Q]; the position reached in a stream is
      threaded explicitly.
    - Addition in the model is the addition of the rationals, while
      [ceil(v) + x] in the program is rounded to [float64]. A run of the
      program is therefore the run of the model in which the k-th value of
      the stream of [random] is the amount by which the k-th stored sum
      exceeds the integer it is built on: the draw itself when the sum is
      representable, the draw as moved by the rounding otherwise. Rounding
      is monotone and keeps the integers, so that amount lies between 0
      and 1, both included, for a draw of [[0, 1)]. What is proved for
      every stream holds of the program as it stands; what is proved under
      a bound on the stream holds of the runs whose stored sums respect the
      bound. Where a property is about the rounding itself, the rounding is
      a function [Q -> Q] of which only what the property needs is assumed
      ([integer_preserving_rounding], [rounding_within]).
    - The cells of the probability matrix are of type [float], the
      rationals extended with the infinities and NaN that a division by a
      zero row sum produces; a finite cell holds the exact quotient.
    - The initial matrix is assumed to fit in memory: of the ways
      [np.random.rand] can fail, the [ValueError] for a negative dimension
      and for a shape beyond numpy's size limit are modelled, a
      [MemoryError] is not.
    - A Python exception is a value of [exn]; fallible code lives in the
      [result] monad. N and M are Python integers ([Z]); indices are [nat].
    - The files written by the pipeline are a log of [output] events. *)

From Stdlib Require Import ZArith QArith Qround Qfield Lqa String.
From stdpp Require Import base list.

Local Open Scope Q_scope.

(** ** Exceptions and the error monad *)

Inductive exn : Type :=
  | ValueError
  | IndexError.

Inductive result (A : Type) : Type :=
  | OK (a : A)
  | Raise (e : exn).
Arguments OK {A} a.
Arguments Raise {A} e.

Global Instance result_ret : MRet result := fun _ a => OK a.
Global Instance result_bind : MBind result := fun _ _ f c =>
  match c with
  | OK a => f a
  | Raise e => Raise e
  end.

(** [l[i]] on a Python list or along one axis of an array. *)
Definition getitem {A : Type} (l : list A) (i : nat) : result A :=
  match l !! i with
  | Some x => OK x
  | None => Raise IndexError
  end.

(** [for x in l: s = body x s], stopping at the first exception. *)
Fixpoint for_each {A S : Type} (l : list A) (body : A → S → result S) (s : S) : result S :=
  match l with
  | [] => OK s
  | x :: l' => s' ← body x s; for_each l' body s'
  end.

(** [range(a, b)] for Python integers. *)
Definition range (a b : Z) : list nat :=
  seq (Z.to_nat a) (Z.to_nat b - Z.to_nat a).

(** ** numpy primitives on rows and matrices *)

Abbreviation matrix := (list (list Q)).

Definition is_nonzero (x : Q) : bool := negb (Qeq_bool x 0).

(** Row-major enumeration of the cells with their coordinates. *)
Definition enumerate_row (row : list Q) : list (nat * Q) :=
  imap (fun j x => (j, x)) row.

Definition enumerate (m : matrix) : list ((nat * nat) * Q) :=
  concat (imap (fun i row => (fun jx => ((i, jx.1), jx.2)) <$> enumerate_row row) m).

(** [row[np.nonzero(row)]]: the nonzero values of a row, in index order. *)
Definition nonzero_row_values (row : list Q) : list Q :=
  snd <$> List.filter (fun jx => is_nonzero jx.2) (enumerate_row row).

(** [m[np.nonzero(m)]]: the nonzero values of a matrix, in row-major order. *)
Definition nonzero_values (m : matrix) : list Q :=
  snd <$> List.filter (fun cx => is_nonzero cx.2) (enumerate m).

Definition Qmin_b (x y : Q) : Q := if Qle_bool x y then x else y.

(** [np.min]: a [ValueError] on an empty selection. *)
Definition np_min (l : list Q) : result Q :=
  match l with
  | [] => Raise ValueError
  | x :: l' => OK (fold_left Qmin_b l' x)
  end.

(** [np.argwhere(row == v)]: the indices holding [v], ascending. *)
Definition argwhere_row (row : list Q) (v : Q) : list nat :=
  fst <$> List.filter (fun jx => Qeq_bool jx.2 v) (enumerate_row row).

(** [np.argwhere(m == v)]: the coordinates holding [v], row-major. *)
Definition argwhere (m : matrix) (v : Q) : list (nat * nat) :=
  fst <$> List.filter (fun cx => Qeq_bool cx.2 v) (enumerate m).

(** [np.random.rand(n, k)] read from the stream at position [q]. *)
Definition rand (np_random : nat → Q) (q n k : nat) : matrix :=
  (fun i => (fun j => np_random (q + i * k + j)%nat) <$> seq 0 k) <$> seq 0 n.

(** [np.fill_diagonal(m, v)] on a 2-D array. *)
Definition fill_diagonal (m : matrix) (v : Q) : matrix :=
  imap (fun i row => <[i := v]> row) m.

(** Python's [math.ceil] followed by the promotion of the integer to a float. *)
Definition ceil (v : Q) : Q := inject_Z (Qceiling v).

(** ** The generator *)

(** The largest size in bytes of a numpy array on a 64-bit platform
    ([sys.maxsize]). *)
Definition NPY_MAX_INTP : Z := 2 ^ 63 - 1.

(** [initialize_markov_chain(N)]; [np.random.rand(N, N)] raises a
    [ValueError] on a negative dimension and on a shape whose N * N cells
    of 8 bytes exceed [NPY_MAX_INTP]. Returns the matrix and the new
    position in numpy's stream. *)
Definition initialize_markov_chain (np_random : nat → Q) (N : Z) (q : nat)
  : result (matrix * nat) :=
  if ((N <? 0) || (NPY_MAX_INTP <? 8 * N * N))%Z then Raise ValueError
  else
    let n := Z.to_nat N in
    let markov_chain := rand np_random q n n in
    OK (fill_diagonal markov_chain 0, (q + n * n)%nat).

(** [m[r, c] = ceil(m[r, c]) + x], where [x] is the value drawn by
    [random.random()]. The sum is that of the rationals: [x] is the draw
    where the program's sum is representable, and otherwise what the
    rounded sum adds to the ceiling. *)
Definition reinforce (markov_chain : matrix) (r c : nat) (x : Q) : result matrix :=
  row ← getitem markov_chain r;
  v ← getitem row c;
  OK (<[r := <[c := ceil v + x]> row]> markov_chain).

Section Builder.
(** The stream of Python's [random.random()]. *)
Variable py_random : nat → Q.

(** State of one call: the sequence built so far, the matrix, the
    position in the stream. *)
Definition builder_state : Type := list nat * matrix * nat.

(** Lines 68-73: the seed pair and its reinforcement. *)
Definition seed (markov_chain : matrix) (p : nat) : result builder_state :=
  min_value ← np_min (nonzero_values markov_chain);
  min_value_coordinates ← getitem (argwhere markov_chain min_value) 0;
  let sequence := [] ++ [min_value_coordinates.1] in
  let sequence := sequence ++ [min_value_coordinates.2] in
  markov_chain' ← reinforce markov_chain min_value_coordinates.1
                    min_value_coordinates.2 (py_random p);
  OK (sequence, markov_chain', S p).

(** Lines 76-79: one iteration of the extension loop. *)
Definition extend (i : nat) (st : builder_state) : result builder_state :=
  let '(sequence, markov_chain, p) := st in
  prev ← getitem sequence (i - 1);
  row ← getitem markov_chain prev;
  min_value ← np_min (nonzero_row_values row);
  c ← getitem (argwhere_row row min_value) 0;
  let sequence := sequence ++ [c] in
  prev' ← getitem sequence (i - 1);
  markov_chain' ← reinforce markov_chain prev' c (py_random p);
  OK (sequence, markov_chain', S p).

(** The seed step followed by the iterations [idx] of the loop. *)
Definition build (idx : list nat) (markov_chain : matrix) (p : nat)
  : result builder_state :=
  st ← seed markov_chain p;
  for_each idx extend st.

(** [generate_sequence(N, markov_chain)]. *)
Definition generate_sequence (N : Z) (markov_chain : matrix) (p : nat)
  : result builder_state :=
  build (range 2 N) markov_chain p.

(** Line 87, the body of the loop of [generate_sequences]: one call of the
    builder on the shared matrix, its result appended. *)
Definition generate_sequences_body (N : Z) (_ : nat)
    (st : list (list nat) * matrix * nat) : result (list (list nat) * matrix * nat) :=
  let '(sequences, markov_chain, p) := st in
  '(sequence, markov_chain', p') ← generate_sequence N markov_chain p;
  OK (sequences ++ [sequence], markov_chain', p').

(** [generate_sequences(N, M, markov_chain)]: the matrix and the stream
    position are carried from one call of the builder to the next. *)
Definition generate_sequences (N M : Z) (markov_chain : matrix) (p : nat)
  : result (list (list nat) * matrix * nat) :=
  for_each (range 0 M) (generate_sequences_body N) ([], markov_chain, p).
End Builder.

(** ** Transition statistics *)

(** A [float64] cell of the probability matrix: division can leave the
    finite values. A finite quotient is kept exact, the rounded cell of
    the program being its image by the rounding. Signed zeros are not
    modelled. *)
Inductive float : Type :=
  | Fin (q : Q)
  | PosInf
  | NegInf
  | NaN.

Definition fadd (a b : float) : float :=
  match a, b with
  | Fin x, Fin y => Fin (x + y)
  | NaN, _ | _, NaN => NaN
  | PosInf, NegInf | NegInf, PosInf => NaN
  | PosInf, _ | _, PosInf => PosInf
  | NegInf, _ | _, NegInf => NegInf
  end.

Definition fdiv (a b : float) : float :=
  match a, b with
  | Fin x, Fin y =>
      if Qeq_bool y 0 then
        if Qeq_bool x 0 then NaN else if Qle_bool 0 x then PosInf else NegInf
      else Fin (x / y)
  | NaN, _ | _, NaN => NaN
  | Fin _, _ => Fin 0
  | _, PosInf | _, NegInf => NaN
  | PosInf, Fin y => if Qle_bool 0 y then PosInf else NegInf
  | NegInf, Fin y => if Qle_bool 0 y then NegInf else PosInf
  end.

Abbreviation fmatrix := (list (list float)).

(** [np.zeros((n, k))]. *)
Definition zeros (n k : nat) : fmatrix := replicate n (replicate k (Fin 0)).

(** [np.sum(row)]. *)
Definition np_sum (row : list float) : float := fold_left fadd row (Fin 0).

(** [t[a, b] += 1]. *)
Definition increment (t : fmatrix) (a b : nat) : result fmatrix :=
  row ← getitem t a;
  v ← getitem row b;
  OK (<[a := <[b := fadd v (Fin 1)]> row]> t).

(** Lines 96-97: the transitions of one sequence. *)
Definition count_sequence (N : nat) (sequence : list nat) (t : fmatrix) : result fmatrix :=
  for_each (range 0 (Z.of_nat N - 1))
    (fun i t =>
       a ← getitem sequence i;
       b ← getitem sequence (i + 1);
       increment t a b)
    t.

(** Lines 98-99: row [i] is replaced by its quotient by its own sum (the
    source reads the row twice, once for each operand). *)
Definition normalize_row (i : nat) (t : fmatrix) : result fmatrix :=
  row ← getitem t i;
  OK (<[i := (fun x : float => fdiv x (np_sum row)) <$> row]> t).

(** [calculate_transition_probability_matrix(sequences)]. The symbols are
    the indices that the generator returns, which are not negative; the
    negative integers, which numpy counts from the end of an axis, are
    outside the model. *)
Definition calculate_transition_probability_matrix (sequences : list (list nat))
  : result fmatrix :=
  first ← getitem sequences 0;
  let N := length first in
  t ← for_each sequences (count_sequence N) (zeros N N);
  for_each (range 0 (Z.of_nat N)) normalize_row t.

(** ** The pipeline *)

Inductive output : Type :=
  | MakeDirs (path : string)
  | SequencesCsv (path : string) (sequences : list (list nat))
  | MatrixCsv (path : string) (t : fmatrix)
  | MatrixPng (path : string) (t : fmatrix).

(** Lines 133-137 of [generate_balanced_sequences]: everything that is
    computed before the first file is touched. *)
Definition compute_balanced_sequences (np_random py_random : nat → Q) (N M : Z)
  : result (list (list nat) * fmatrix) :=
  '(markov_chain, _) ← initialize_markov_chain np_random N 0;
  '(sequences, _, _) ← generate_sequences py_random N M markov_chain 0;
  transition_probability_matrix ← calculate_transition_probability_matrix sequences;
  OK (sequences, transition_probability_matrix).

(** [generate_balanced_sequences(N, M, subfolder)]: what the call asks of
    the file system, in order, once the computation has ended, and how
    the call ends when the file system grants it. [MakeDirs] stands for the
    call of [create_subfolder], which creates the folder when it does not
    exist; a failure of the file system is not modelled. *)
Definition generate_balanced_sequences (np_random py_random : nat → Q) (N M : Z)
    (subfolder : string) : list output * result unit :=
  match compute_balanced_sequences np_random py_random N M with
  | Raise e => ([], Raise e)
  | OK (sequences, t) =>
      ([ MakeDirs subfolder;
         SequencesCsv (subfolder ++ "/sequences.csv") sequences;
         MatrixCsv (subfolder ++ "/sequences_transition_matrix.csv") t;
         MatrixPng (subfolder ++ "/sequences_transition_matrix.png") t ],
       OK tt)
  end.

Local Close Scope Q_scope.

(** ** Vocabulary of the properties *)

(** The value at [(r, c)], when the coordinates are in range. *)
Definition cell {A : Type} (m : list (list A)) (r c : nat) : option A :=
  m !! r ≫= (.!! c).

(** The lengths of the rows: the shape of the array. *)
Definition shape {A : Type} (m : list (list A)) : list nat := length <$> m.

Definition square {A : Type} (n : nat) (m : list (list A)) : Prop :=
  shape m = replicate n n.

(** Every cell on the diagonal holds the literal zero. *)
Definition diag_zero (m : matrix) : Prop :=
  ∀ i x, cell m i i = Some x → x = 0%Q.

(** Every cell off the diagonal is positive. *)
Definition offdiag_positive (m : matrix) : Prop :=
  ∀ r c x, r ≠ c → cell m r c = Some x → (0 < x)%Q.

(** The consecutive pairs [(s[i], s[i+1])] of a sequence, in order. *)
Definition transitions (s : list nat) : list (nat * nat) := zip s (tail s).

(** No two consecutive elements are equal. *)
Definition no_repeat (s : list nat) : Prop :=
  Forall (fun ab => ab.1 ≠ ab.2) (transitions s).

(** Every element is a symbol of the alphabet [[0, n)]. *)
Definition in_alphabet (n : nat) (s : list nat) : Prop :=
  Forall (fun a => a < n) s.

(** Every symbol of the alphabet [[0, n)] occurs in the sequence. *)
Definition covers_alphabet (n : nat) (s : list nat) : Prop :=
  ∀ a, a < n → a ∈ s.

(** [m'] is [m] with the single cell [(r, c)], which held a nonzero [v],
    replaced by [ceil(v) + x]. *)
Definition reinforced (m : matrix) (r c : nat) (x : Q) (m' : matrix) : Prop :=
  ∃ row v, m !! r = Some row ∧ row !! c = Some v ∧ is_nonzero v = true ∧
           m' = <[r := <[c := (ceil v + x)%Q]> row]> m.

(** [walk py m p s m' p']: starting from matrix [m] and stream position
    [p], the sequence [s] was grown by a seed pair and then one element at
    a time, each new transition [(last s, c)] being reinforced once with the
    next draw; [m'] and [p'] are the matrix and position reached. *)
Inductive walk (py_random : nat → Q) (m : matrix) (p : nat)
  : list nat → matrix → nat → Prop :=
  | walk_seed r c m' :
      reinforced m r c (py_random p) m' →
      walk py_random m p [r; c] m' (S p)
  | walk_extend s m1 p1 prev c m2 :
      walk py_random m p s m1 p1 →
      last s = Some prev →
      reinforced m1 prev c (py_random p1) m2 →
      walk py_random m p (s ++ [c]) m2 (S p1).

(** One reinforcement per listed cell, in order, each with the next draw. *)
Definition reinforce_all (py_random : nat → Q) (cells : list (nat * nat))
    (m : matrix) (p : nat) : result (matrix * nat) :=
  for_each cells
    (fun rc '(m, p) => m' ← reinforce m rc.1 rc.2 (py_random p); OK (m', S p))
    (m, p).

(** The state in which the generator keeps the matrix when the draws are
    positive: n x n, zero on the diagonal, positive elsewhere. *)
Definition well_formed (n : nat) (m : matrix) : Prop :=
  square n m ∧ diag_zero m ∧ offdiag_positive m.

(** ** The minimum searches, as the specification words them *)

(** The first cell, in the order of the list, among those that hold the
    least value of the list. *)
Definition first_minimum {K : Type} (cells : list (K * Q)) : option (K * Q) :=
  fold_left
    (fun best cx =>
       match best with
       | None => Some cx
       | Some bx => if Qle_bool bx.2 cx.2 then best else Some cx
       end)
    cells None.

(** The off-diagonal cells of a matrix, row-major. *)
Definition off_diagonal (m : matrix) : list ((nat * nat) * Q) :=
  List.filter (fun cx => negb (cx.1.1 =? cx.1.2)) (enumerate m).

(** The off-diagonal cells of row [r], by ascending column. *)
Definition off_diagonal_row (r : nat) (row : list Q) : list (nat * Q) :=
  List.filter (fun jx => negb (jx.1 =? r)) (enumerate_row row).

(** The seed search of the specification: the first cell in row-major
    order among the off-diagonal cells that hold the least off-diagonal value. *)
Definition seed_choice_spec (m : matrix) : option (nat * nat) :=
  fst <$> first_minimum (off_diagonal m).

(** The extension search of the specification on row [r]. *)
Definition row_choice_spec (r : nat) (row : list Q) : option nat :=
  fst <$> first_minimum (off_diagonal_row r row).

(** Every cell off the diagonal is nonzero. *)
Definition offdiag_nonzero (m : matrix) : Prop :=
  ∀ r c x, r ≠ c → cell m r c = Some x → is_nonzero x = true.

(** ** The probability matrix, as the specification words it *)

(** The transitions of all the sequences of a set. *)
Definition all_transitions (sequences : list (list nat)) : list (nat * nat) :=
  concat (transitions <$> sequences).

(** How many of the listed transitions are [(a, b)]. *)
Definition count_transitions (ts : list (nat * nat)) (a b : nat) : nat :=
  length (filter (fun t => t = (a, b)) ts).

(** The sum of row [a] of the N x N matrix of counts. *)
Definition row_total (N : nat) (ts : list (nat * nat)) (a : nat) : nat :=
  sum_list (count_transitions ts a <$> seq 0 N).

(** A count held in a [float64] cell. *)
Definition of_count (k : nat) : float := Fin (inject_Z (Z.of_nat k)).

(** The N x N matrix whose cell [(a, b)] is the count [f a b]. *)
Definition tabulate (N : nat) (f : nat → nat → nat) : fmatrix :=
  (fun a => (fun b => of_count (f a b)) <$> seq 0 N) <$> seq 0 N.

(** Count every consecutive pair of every sequence into an N x N zero
    matrix, then divide each row by its sum. *)
Definition probability_matrix_spec (N : nat) (sequences : list (list nat)) : fmatrix :=
  (fun a =>
     (fun b => fdiv (of_count (count_transitions (all_transitions sequences) a b))
                    (of_count (row_total N (all_transitions sequences) a)))
     <$> seq 0 N)
  <$> seq 0 N.

(** A row divided by its own sum. *)
Definition normalized (row : list float) : list float :=
  (fun x => fdiv x (np_sum row)) <$> row.

(** ** Vocabulary of the further properties *)

(** The cell [(r, c)] holds a nonzero value and no nonzero cell of row
    [r] holds less. *)
Definition least_in_row (m : matrix) (r c : nat) : Prop :=
  ∃ x, cell m r c = Some x ∧ is_nonzero x = true ∧
       ∀ c' y, cell m r c' = Some y → is_nonzero y = true → (x <= y)%Q.

(** Every off-diagonal cell lies above the number of times its transition
    occurs in [ts] and not above that number plus one. *)
Definition tiered (m : matrix) (ts : list (nat * nat)) : Prop :=
  ∀ r c x, r ≠ c → cell m r c = Some x →
    (inject_Z (Z.of_nat (count_transitions ts r c)) < x)%Q ∧
    (x <= inject_Z (Z.of_nat (count_transitions ts r c)) + 1)%Q.

(** Out of every symbol, two transitions to other symbols of the alphabet
    [[0, n)] have been made the same number of times, up to one. *)
Definition balanced (n : nat) (ts : list (nat * nat)) : Prop :=
  ∀ r c1 c2, c1 < n → c2 < n → r ≠ c1 → r ≠ c2 →
    count_transitions ts r c1 ≤ count_transitions ts r c2 + 1.

(** What the generator keeps of an n x n matrix and of the transitions
    [ts] made so far when every reinforcement stores more than the integer
    it adds to, and at most the next integer. *)
Definition usage_invariant (n : nat) (m : matrix) (ts : list (nat * nat)) : Prop :=
  square n m ∧ diag_zero m ∧ tiered m ts ∧ balanced n ts.

(** ** Rounding *)

(** What the reinforcement needs of the rounding of a [float64] sum: it
    is monotone and it keeps the integers up to 2^53, which are all
    representable. *)
Definition integer_preserving_rounding (fl : Q → Q) : Prop :=
  (∀ x y, (x <= y)%Q → (fl x <= fl y)%Q) ∧
  (∀ k : Z, (Z.abs k <= 2 ^ 53)%Z → (fl (inject_Z k) == inject_Z k)%Q).

(** What the row sums need of the rounding of [float64] quotients and
    sums: on what is not negative, a relative error of at most [u]
    (2^-53 for [float64], away from underflow and overflow). *)
Definition rounding_within (u : Q) (fl : Q → Q) : Prop :=
  ∀ z, (0 <= z)%Q → ((1 - u) * z <= fl z)%Q ∧ (fl z <= (1 + u) * z)%Q.

(** [float_sum fl l s]: [s] is a sum of the values [l] as floating-point
    arithmetic computes one. The values are added two by two, in some
    order and with some grouping, and every addition is rounded; [np.sum]
    adds in an order of its own choice. *)
Inductive float_sum (fl : Q → Q) : list Q → Q → Prop :=
  | float_sum_one x : float_sum fl [x] x
  | float_sum_add l1 s1 l2 s2 :
      float_sum fl l1 s1 → float_sum fl l2 s2 →
      float_sum fl (l1 ++ l2) (fl (s1 + s2)%Q)
  | float_sum_perm l l' s :
      l ≡ₚ l' → float_sum fl l s → float_sum fl l' s.

(** The n-th power and the exact sum, for the bounds. *)
Fixpoint Qpow (q : Q) (n : nat) : Q :=
  match n with
  | 0 => 1%Q
  | S n => (q * Qpow q n)%Q
  end.

Fixpoint Qsum (l : list Q) : Q :=
  match l with
  | [] => 0%Q
  | x :: l => (x + Qsum l)%Q
  end.

(** ** Test data *)

(** A stream that replays a list of draws and then repeats [1/2]. *)
Definition replay (draws : list Q) (i : nat) : Q := nth i draws (1 # 2)%Q.

Definition np_example : nat → Q :=
  replay [7#10; 1#10; 5#10;  2#10; 7#10; 9#10;  3#10; 4#10; 7#10]%Q.

Definition py_example : nat → Q := replay [1#2; 1#4; 3#4; 1#8]%Q.

(** The matrix the initializer builds from [np_example] for N = 3. *)
Definition m_example : matrix :=
  [[0; 1#10; 5#10]; [2#10; 0; 9#10]; [3#10; 4#10; 0]]%Q.

(** Two streams that replay the draws of [np_example] and [py_example]
    consumed by a run with N = 3 and M = 2, and differ from them afterwards. *)
Definition np_example' : nat → Q :=
  replay [7#10; 1#10; 5#10;  2#10; 7#10; 9#10;  3#10; 4#10; 7#10; 1#3]%Q.

Definition py_example' : nat → Q := replay [1#2; 1#4; 3#4; 1#8; 1#3]%Q.

(** The amounts added by four reinforcements of which the first stores
    the next integer itself, as the sum of 1 and a draw just below 1 does
    once rounded to [float64]. *)
Definition py_rounded_up : nat → Q := replay [1; 1#4; 3#4; 1#8]%Q.

(** Rounding to the nearest half, a half of a half going up: a coarse
    rounding on which the effect of the rounding of [float64] shows with
    small numbers. *)
Definition round_to_halves (x : Q) : Q :=
  (inject_Z (Qfloor (2 * x + (1 # 2))) / 2)%Q.


(** A matrix the initializer builds when the draw for cell (0, 1) is 0. *)
Definition np_zero_draw : nat → Q :=
  replay [7#10; 0; 5#10;  3#10; 7#10; 4#10;  2#10; 6#10; 7#10]%Q.

Definition m_zero_cell : matrix :=
  [[0; 0; 5#10]; [3#10; 0; 4#10]; [2#10; 6#10; 0]]%Q.

(** A matrix in which the least nonzero value, 2/10, is held by three
    cells, two of them in row 1. *)
Definition m_tie : matrix :=
  [[0; 5#10; 2#10]; [2#10; 0; 2#10]; [3#10; 4#10; 0]]%Q.

(** ** Reasoning in the error monad *)

Lemma bind_OK {A B : Type} (c : result A) (f : A → result B) (b : B) :
  c ≫= f = OK b ↔ ∃ a, c = OK a ∧ f a = OK b.
Proof.
  destruct c as [a|e]; simpl; split.
  - intros H. exists a. split; [reflexivity | exact H].
  - intros (a' & Ha & Hf). injection Ha as ->. exact Hf.
  - discriminate.
  - intros (a' & Ha & _). discriminate.
Qed.

Lemma bind_OK_l {A B : Type} (a : A) (f : A → result B) : OK a ≫= f = f a.
Proof. reflexivity. Qed.

Lemma bind_OK_r {A : Type} (c : result A) : c ≫= OK = c.
Proof. by destruct c. Qed.

Lemma getitem_OK {A : Type} (l : list A) (i : nat) (x : A) :
  getitem l i = OK x ↔ l !! i = Some x.
Proof.
  unfold getitem. destruct (l !! i); split; intros H; congruence.
Qed.

(** Invert every successful bind and lookup among the hypotheses. *)
Ltac inv_ok :=
  repeat match goal with
  | H : _ ≫= _ = OK _ |- _ => apply bind_OK in H; destruct H as (? & ? & H)
  | H : getitem _ _ = OK _ |- _ => apply getitem_OK in H
  | H : OK _ = OK _ |- _ => injection H as H; subst
  | H : (_, _) = (_, _) |- _ => injection H as ? ?; subst
  | H : Raise _ = OK _ |- _ => discriminate H
  end.

Lemma for_each_cons {A S : Type} (x : A) (l : list A) (body : A → S → result S) (s : S) :
  for_each (x :: l) body s = body x s ≫= for_each l body.
Proof. reflexivity. Qed.

Lemma for_each_app {A S : Type} (l1 l2 : list A) (body : A → S → result S) (s : S) :
  for_each (l1 ++ l2) body s = for_each l1 body s ≫= for_each l2 body.
Proof.
  revert s. induction l1 as [|x l1 IH]; intros s; simpl; [reflexivity|].
  destruct (body x s) as [s'|e]; simpl; [apply IH | reflexivity].
Qed.

Lemma range_length (a b : Z) : length (range a b) = (Z.to_nat b - Z.to_nat a)%nat.
Proof. unfold range. apply length_seq. Qed.

(** ** The searches *)

Lemma Qmin_b_cases (x y : Q) : Qmin_b x y = x ∨ Qmin_b x y = y.
Proof. unfold Qmin_b. destruct (Qle_bool x y); auto. Qed.

Lemma fold_Qmin_b_elem (l : list Q) (x : Q) :
  fold_left Qmin_b l x = x ∨ fold_left Qmin_b l x ∈ l.
Proof.
  revert x. induction l as [|y l IH]; intros x; simpl; [by left|].
  destruct (IH (Qmin_b x y)) as [H|H].
  - rewrite H. destruct (Qmin_b_cases x y) as [->| ->]; [by left | right; by left].
  - right. by right.
Qed.

(** The minimum is one of the values searched. *)
Lemma np_min_elem (l : list Q) (v : Q) : np_min l = OK v → v ∈ l.
Proof.
  destruct l as [|x l]; simpl; [discriminate|].
  intros [= <-]. destruct (fold_Qmin_b_elem l x) as [-> | H]; [by left | by right].
Qed.

Lemma fold_Qmin_b_le (l : list Q) (x : Q) :
  (fold_left Qmin_b l x <= x)%Q ∧ ∀ y, y ∈ l → (fold_left Qmin_b l x <= y)%Q.
Proof.
  revert x. induction l as [|z l IH]; intros x; simpl.
  - split; [apply Qle_refl | intros y Hy; inversion Hy].
  - destruct (IH (Qmin_b x z)) as [H1 H2].
    assert (Hx : (Qmin_b x z <= x)%Q ∧ (Qmin_b x z <= z)%Q).
    { unfold Qmin_b. destruct (Qle_bool x z) eqn:E.
      - apply Qle_bool_iff in E. split; [apply Qle_refl | exact E].
      - split; [| apply Qle_refl].
        destruct (Qlt_le_dec z x) as [Hlt|Hle]; [by apply Qlt_le_weak|].
        apply Qle_bool_iff in Hle. congruence. }
    destruct Hx as [Hx Hz]. split.
    + eapply Qle_trans; eassumption.
    + intros y Hy. apply elem_of_cons in Hy as [-> | Hy]; [|by apply H2].
      eapply Qle_trans; eassumption.
Qed.

(** The minimum is below every value searched. *)
Lemma np_min_le (l : list Q) (v y : Q) : np_min l = OK v → y ∈ l → (v <= y)%Q.
Proof.
  destruct l as [|x l]; simpl; [discriminate|].
  intros [= <-] Hy. destruct (fold_Qmin_b_le l x) as [H1 H2].
  apply elem_of_cons in Hy as [-> | Hy]; [exact H1 | by apply H2].
Qed.

(** [np.min] raises exactly on an empty selection. *)
Lemma np_min_is_OK (l : list Q) : l ≠ [] → ∃ v, np_min l = OK v.
Proof. destruct l; [done | eauto]. Qed.

Lemma elem_of_filter_b {A : Type} (f : A → bool) (l : list A) (x : A) :
  x ∈ List.filter f l ↔ x ∈ l ∧ f x = true.
Proof. rewrite !list_elem_of_In. apply filter_In. Qed.

Lemma elem_of_concat {A : Type} (ls : list (list A)) (x : A) :
  x ∈ concat ls ↔ ∃ l, l ∈ ls ∧ x ∈ l.
Proof.
  rewrite list_elem_of_In, in_concat. split; intros (l & H1 & H2); exists l.
  - by rewrite !list_elem_of_In.
  - by rewrite <- !list_elem_of_In.
Qed.

Lemma elem_of_enumerate_row (row : list Q) (j : nat) (x : Q) :
  (j, x) ∈ enumerate_row row ↔ row !! j = Some x.
Proof.
  unfold enumerate_row. rewrite elem_of_lookup_imap. split.
  - intros (i & y & [= -> ->] & H). exact H.
  - intros H. eauto.
Qed.

Lemma elem_of_enumerate (m : matrix) (r c : nat) (x : Q) :
  ((r, c), x) ∈ enumerate m ↔ ∃ row, m !! r = Some row ∧ row !! c = Some x.
Proof.
  unfold enumerate. rewrite elem_of_concat. split.
  - intros (l & Hl & Hx). apply elem_of_lookup_imap in Hl as (i & row & -> & Hrow).
    apply list_elem_of_fmap in Hx as ([j y] & [= -> -> ->] & Hjy).
    apply elem_of_enumerate_row in Hjy. eauto.
  - intros (row & Hrow & Hx). eexists. split.
    + apply elem_of_lookup_imap. eauto.
    + apply list_elem_of_fmap. exists (c, x). split; [reflexivity|].
      by apply elem_of_enumerate_row.
Qed.

(** ** One reinforcement *)

Lemma cell_Some {A : Type} (m : list (list A)) (r c : nat) (x : A) :
  cell m r c = Some x ↔ ∃ row, m !! r = Some row ∧ row !! c = Some x.
Proof.
  unfold cell. destruct (m !! r) as [row|]; simpl; split.
  - intros H. eauto.
  - intros (row' & [= <-] & H). exact H.
  - discriminate.
  - intros (row' & H & _). discriminate.
Qed.

Lemma is_nonzero_Qeq (x v : Q) :
  Qeq_bool x v = true → is_nonzero v = true → is_nonzero x = true.
Proof.
  unfold is_nonzero. intros Hxv Hv. apply Qeq_bool_iff in Hxv.
  destruct (Qeq_bool x 0) eqn:E; [|reflexivity].
  apply Qeq_bool_iff in E. rewrite Hxv in E. apply Qeq_bool_iff in E.
  rewrite E in Hv. discriminate.
Qed.

Lemma is_nonzero_0 : is_nonzero 0%Q = false.
Proof. reflexivity. Qed.

Lemma reinforced_reinforce m r c x m' :
  reinforced m r c x m' → reinforce m r c x = OK m'.
Proof.
  intros (row & v & Hr & Hc & _ & ->). unfold reinforce, getitem.
  rewrite Hr. simpl. rewrite Hc. reflexivity.
Qed.

Lemma reinforced_shape m r c x m' : reinforced m r c x m' → shape m' = shape m.
Proof.
  intros (row & v & Hr & Hc & _ & ->). unfold shape.
  rewrite list_fmap_insert, length_insert. apply list_insert_id.
  by rewrite list_lookup_fmap, Hr.
Qed.

(** On a matrix with a zero diagonal the reinforced cell is off the diagonal. *)
Lemma reinforced_off_diagonal m r c x m' :
  diag_zero m → reinforced m r c x m' → r ≠ c.
Proof.
  intros Hd (row & v & Hr & Hc & Hv & _) ->.
  assert (v = 0%Q) as -> by (apply (Hd c); apply cell_Some; eauto).
  rewrite is_nonzero_0 in Hv. discriminate.
Qed.

Lemma reinforced_in_range m r c x m' :
  reinforced m r c x m' → ∃ v, cell m r c = Some v ∧ is_nonzero v = true.
Proof.
  intros (row & v & Hr & Hc & Hv & _). exists v. split; [|exact Hv].
  apply cell_Some. eauto.
Qed.

(** The reinforced cell holds [ceil(v) + x]. *)
Lemma reinforced_cell_eq m r c x m' :
  reinforced m r c x m' →
  ∃ v, cell m r c = Some v ∧ cell m' r c = Some (ceil v + x)%Q.
Proof.
  intros (row & v & Hr & Hc & Hv & ->). exists v. split.
  - apply cell_Some. eauto.
  - apply cell_Some. exists (<[c := (ceil v + x)%Q]> row). split.
    + apply list_lookup_insert_eq. by eapply lookup_lt_Some.
    + apply list_lookup_insert_eq. by eapply lookup_lt_Some.
Qed.

(** Every other cell is left as it was. *)
Lemma reinforced_cell_ne m r c x m' r' c' :
  reinforced m r c x m' → (r', c') ≠ (r, c) → cell m' r' c' = cell m r' c'.
Proof.
  intros (row & v & Hr & Hc & Hv & ->) Hne. unfold cell.
  destruct (decide (r = r')) as [<-|Hrr].
  - rewrite list_lookup_insert_eq by (by eapply lookup_lt_Some).
    rewrite Hr. simpl. apply list_lookup_insert_ne. congruence.
  - by rewrite list_lookup_insert_ne.
Qed.

Lemma reinforced_diag_zero m r c x m' :
  diag_zero m → reinforced m r c x m' → diag_zero m'.
Proof.
  intros Hd Hre i y Hy. apply (Hd i).
  rewrite <- Hy. symmetry. eapply reinforced_cell_ne; [exact Hre|].
  pose proof (reinforced_off_diagonal _ _ _ _ _ Hd Hre). congruence.
Qed.

(** ** The two steps of the builder *)

Lemma elem_of_nonzero_values (m : matrix) (v : Q) :
  v ∈ nonzero_values m ↔ is_nonzero v = true ∧ ∃ r c, cell m r c = Some v.
Proof.
  unfold nonzero_values. rewrite list_elem_of_fmap. split.
  - intros ([[r c] x] & -> & H). apply elem_of_filter_b in H as [H Hx].
    split; [exact Hx|]. exists r, c. apply cell_Some. by apply elem_of_enumerate.
  - intros (Hv & r & c & H). exists ((r, c), v). split; [reflexivity|].
    apply elem_of_filter_b. split; [|exact Hv].
    apply elem_of_enumerate. by apply cell_Some.
Qed.

Lemma elem_of_nonzero_row_values (row : list Q) (v : Q) :
  v ∈ nonzero_row_values row ↔ is_nonzero v = true ∧ ∃ c, row !! c = Some v.
Proof.
  unfold nonzero_row_values. rewrite list_elem_of_fmap. split.
  - intros ([c x] & -> & H). apply elem_of_filter_b in H as [H Hx].
    split; [exact Hx|]. exists c. by apply elem_of_enumerate_row.
  - intros (Hv & c & H). exists (c, v). split; [reflexivity|].
    apply elem_of_filter_b. split; [|exact Hv]. by apply elem_of_enumerate_row.
Qed.

Lemma elem_of_argwhere (m : matrix) (v : Q) (r c : nat) :
  (r, c) ∈ argwhere m v ↔ ∃ x, cell m r c = Some x ∧ Qeq_bool x v = true.
Proof.
  unfold argwhere. rewrite list_elem_of_fmap. split.
  - intros ([[r' c'] x] & [= -> ->] & H). apply elem_of_filter_b in H as [H Hx].
    exists x. split; [|exact Hx]. apply cell_Some. by apply elem_of_enumerate.
  - intros (x & H & Hx). exists ((r, c), x). split; [reflexivity|].
    apply elem_of_filter_b. split; [|exact Hx].
    apply elem_of_enumerate. by apply cell_Some.
Qed.

Lemma elem_of_argwhere_row (row : list Q) (v : Q) (c : nat) :
  c ∈ argwhere_row row v ↔ ∃ x, row !! c = Some x ∧ Qeq_bool x v = true.
Proof.
  unfold argwhere_row. rewrite list_elem_of_fmap. split.
  - intros ([c' x] & [= ->] & H). apply elem_of_filter_b in H as [H Hx].
    exists x. split; [|exact Hx]. by apply elem_of_enumerate_row.
  - intros (x & H & Hx). exists (c, x). split; [reflexivity|].
    apply elem_of_filter_b. split; [|exact Hx]. by apply elem_of_enumerate_row.
Qed.

Lemma reinforce_OK m r c x m' :
  reinforce m r c x = OK m' →
  ∃ row v, m !! r = Some row ∧ row !! c = Some v ∧
           m' = <[r := <[c := (ceil v + x)%Q]> row]> m.
Proof.
  unfold reinforce. intros H.
  apply bind_OK in H as (row & Hr & H). apply bind_OK in H as (v & Hc & H).
  apply getitem_OK in Hr, Hc. injection H as <-. eauto.
Qed.

Lemma reinforce_nonzero m r c x m' y :
  reinforce m r c x = OK m' → cell m r c = Some y → is_nonzero y = true →
  reinforced m r c x m'.
Proof.
  intros H Hy Hnz. apply reinforce_OK in H as (row & v & Hr & Hc & ->).
  apply cell_Some in Hy as (row' & Hr' & Hc').
  rewrite Hr in Hr'. injection Hr' as <-. rewrite Hc in Hc'. injection Hc' as <-.
  exists row, v. done.
Qed.

Section BuilderSteps.
Variable py_random : nat → Q.

(** What a successful seed step did: it chose a nonzero cell [(r, c)],
    returned the pair and reinforced that one cell with the draw at [p]. *)
Lemma seed_OK m p s m' p' :
  seed py_random m p = OK (s, m', p') →
  ∃ r c, s = [r; c] ∧ reinforced m r c (py_random p) m' ∧ p' = S p.
Proof.
  unfold seed. intros H. inv_ok.
  destruct x0 as [r c]. simpl in *. exists r, c.
  split; [reflexivity|]. split; [|reflexivity].
  assert (Hin : (r, c) ∈ argwhere m x) by (by eapply list_elem_of_lookup_2).
  apply elem_of_argwhere in Hin as (y & Hy & Hyx).
  apply np_min_elem, elem_of_nonzero_values in H0 as [Hx _].
  eapply reinforce_nonzero; [eassumption | exact Hy |]. by eapply is_nonzero_Qeq.
Qed.

(** What a successful iteration [i] did: it read the element at [i - 1],
    chose a nonzero cell of that row, appended its column and reinforced
    that one cell with the draw at [p]. *)
Lemma extend_OK i s m p s' m' p' :
  extend py_random i (s, m, p) = OK (s', m', p') →
  ∃ prev c, s !! (i - 1) = Some prev ∧ s' = s ++ [c] ∧
            reinforced m prev c (py_random p) m' ∧ p' = S p.
Proof.
  unfold extend. intros H. inv_ok.
  rename x into prev, x0 into row, x1 into v, x2 into c, x3 into prev'.
  assert (prev' = prev) as ->.
  { rewrite lookup_app_l in H4 by (by eapply lookup_lt_Some). congruence. }
  exists prev, c. repeat split; try done.
  assert (Hin : c ∈ argwhere_row row v) by (by eapply list_elem_of_lookup_2).
  apply elem_of_argwhere_row in Hin as (y & Hy & Hyv).
  apply np_min_elem, elem_of_nonzero_row_values in H2 as [Hv _].
  eapply reinforce_nonzero; [eassumption | |by eapply is_nonzero_Qeq].
  apply cell_Some. eauto.
Qed.
End BuilderSteps.

(** ** Transitions of a sequence *)

Lemma transitions_cons (a b : nat) (l : list nat) :
  transitions (a :: b :: l) = (a, b) :: transitions (b :: l).
Proof. reflexivity. Qed.

Lemma transitions_snoc (s : list nat) (prev c : nat) :
  last s = Some prev → transitions (s ++ [c]) = transitions s ++ [(prev, c)].
Proof.
  induction s as [|a [|b s] IH]; intros Hlast.
  - discriminate.
  - injection Hlast as ->. reflexivity.
  - change ((a :: b :: s) ++ [c]) with (a :: b :: (s ++ [c])).
    rewrite !transitions_cons. simpl. f_equal. by apply IH.
Qed.

Lemma transitions_length (s : list nat) : length (transitions s) = length s - 1.
Proof.
  induction s as [|a [|b s] IH]; [reflexivity..|].
  rewrite transitions_cons. simpl in *. lia.
Qed.

(** The transitions are the pairs [(s[i], s[i+1])]. *)
Lemma transitions_lookup (s : list nat) (i a b : nat) :
  transitions s !! i = Some (a, b) ↔ s !! i = Some a ∧ s !! S i = Some b.
Proof.
  unfold transitions. rewrite lookup_zip_Some. simpl.
  by rewrite lookup_tail.
Qed.

(** ** The builder as a walk *)

Section BuilderWalk.
Variable py_random : nat → Q.

Lemma walk_length m p s m' p' : walk py_random m p s m' p' → 2 ≤ length s.
Proof.
  induction 1 as [|s m1 p1 prev c m2 _ IH _ _]; simpl; [lia|].
  rewrite length_app. simpl. lia.
Qed.

Lemma loop_walk m p k : ∀ a s1 m1 p1 s' m' p',
  length s1 = a →
  walk py_random m p s1 m1 p1 →
  for_each (seq a k) (extend py_random) (s1, m1, p1) = OK (s', m', p') →
  walk py_random m p s' m' p' ∧ length s' = a + k.
Proof.
  induction k as [|k IH]; intros a s1 m1 p1 s' m' p' Ha Hw Hrun; simpl in Hrun.
  - injection Hrun as <- <- <-. split; [exact Hw | lia].
  - apply bind_OK in Hrun as ([[s2 m2] p2] & Hstep & Hrun).
    apply extend_OK in Hstep as (prev & c & Hprev & -> & Hre & ->).
    pose proof (walk_length _ _ _ _ _ Hw) as Hlen.
    destruct (IH (S a) (s1 ++ [c]) m2 (S p1) s' m' p') as [Hw' Hl'].
    + rewrite length_app. simpl. lia.
    + eapply walk_extend; [exact Hw | | exact Hre].
      rewrite last_lookup. rewrite <- Hprev. f_equal. lia.
    + exact Hrun.
    + split; [exact Hw' | lia].
Qed.

(** Every successful run of the seed step and of [k] iterations of the
    loop is a walk of [2 + k] elements. *)
Lemma build_walk m p k s m' p' :
  build py_random (seq 2 k) m p = OK (s, m', p') →
  walk py_random m p s m' p' ∧ length s = 2 + k.
Proof.
  unfold build. intros H. apply bind_OK in H as ([[s1 m1] p1] & Hseed & Hrun).
  apply seed_OK in Hseed as (r & c & -> & Hre & ->).
  eapply loop_walk; [| |exact Hrun]; [reflexivity|]. by apply walk_seed.
Qed.

Lemma generate_sequence_walk N m p s m' p' :
  generate_sequence py_random N m p = OK (s, m', p') →
  walk py_random m p s m' p' ∧ length s = 2 + (Z.to_nat N - 2).
Proof. unfold generate_sequence, range. apply build_walk. Qed.

Lemma walk_shape m p s m' p' : walk py_random m p s m' p' → shape m' = shape m.
Proof.
  induction 1 as [r c m' Hre|s m1 p1 prev c m2 _ IH _ Hre].
  - by eapply reinforced_shape.
  - rewrite <- IH. by eapply reinforced_shape.
Qed.

Lemma walk_diag_zero m p s m' p' :
  diag_zero m → walk py_random m p s m' p' → diag_zero m'.
Proof.
  intros Hd. induction 1 as [r c m' Hre|s m1 p1 prev c m2 _ IH _ Hre].
  - by eapply reinforced_diag_zero.
  - by eapply reinforced_diag_zero.
Qed.

Lemma walk_position m p s m' p' :
  walk py_random m p s m' p' → p' = p + length (transitions s).
Proof.
  induction 1 as [r c m' Hre|s m1 p1 prev c m2 Hw IH Hlast Hre]; simpl; [lia|].
  rewrite IH, (transitions_snoc _ _ _ Hlast), length_app. simpl. lia.
Qed.
End BuilderWalk.

(** ** The initial matrix *)

Lemma fill_diagonal_cell (m : matrix) (v : Q) (i : nat) (x : Q) :
  cell (fill_diagonal m v) i i = Some x → x = v.
Proof.
  unfold cell, fill_diagonal. rewrite list_lookup_imap.
  destruct (m !! i) as [row|]; simpl; [|discriminate].
  intros H. apply list_lookup_insert_Some in H as [(_ & -> & _) | (Hne & _)]; done.
Qed.

Lemma fill_diagonal_off (m : matrix) (v : Q) (r c : nat) :
  r ≠ c → cell (fill_diagonal m v) r c = cell m r c.
Proof.
  intros Hne. unfold cell, fill_diagonal. rewrite list_lookup_imap.
  destruct (m !! r) as [row|]; simpl; [|reflexivity].
  by apply list_lookup_insert_ne.
Qed.

Lemma fill_diagonal_shape (m : matrix) (v : Q) : shape (fill_diagonal m v) = shape m.
Proof.
  unfold shape, fill_diagonal. apply list_eq. intros i.
  rewrite !list_lookup_fmap, list_lookup_imap.
  destruct (m !! i); simpl; [|reflexivity]. by rewrite length_insert.
Qed.

Lemma rand_shape np_random q n k : shape (rand np_random q n k) = replicate n k.
Proof.
  unfold shape, rand. apply list_eq. intros i.
  rewrite !list_lookup_fmap.
  destruct (decide (i < n)) as [Hi|Hi].
  - rewrite lookup_seq_lt, lookup_replicate_2 by done. simpl.
    by rewrite length_fmap, length_seq.
  - rewrite lookup_seq_ge by lia. symmetry. apply lookup_replicate_None. lia.
Qed.

Lemma rand_cell np_random q n k r c x :
  cell (rand np_random q n k) r c = Some x →
  r < n ∧ c < k ∧ x = np_random (q + r * k + c).
Proof.
  unfold cell, rand. rewrite list_lookup_fmap. intros H.
  destruct (seq 0 n !! r) as [i|] eqn:Hr; simpl in H; [|discriminate].
  apply lookup_seq in Hr as [-> Hr]. rewrite list_lookup_fmap in H.
  destruct (seq 0 k !! c) as [j|] eqn:Hc; simpl in H; [|discriminate].
  apply lookup_seq in Hc as [-> Hc]. injection H as <-. done.
Qed.

(** The shapes that [np.random.rand] accepts. *)
Lemma shape_accepted (N : Z) :
  ((N <? 0) || (NPY_MAX_INTP <? 8 * N * N))%Z = false ↔
  (0 <= N)%Z ∧ (8 * N * N <= NPY_MAX_INTP)%Z.
Proof.
  rewrite orb_false_iff, !Z.ltb_ge. tauto.
Qed.

Lemma shape_rejected (N : Z) :
  ((N <? 0) || (NPY_MAX_INTP <? 8 * N * N))%Z = true ↔
  (N < 0)%Z ∨ (NPY_MAX_INTP < 8 * N * N)%Z.
Proof.
  rewrite orb_true_iff, !Z.ltb_lt. tauto.
Qed.

Lemma initialize_markov_chain_OK np_random N q m q' :
  initialize_markov_chain np_random N q = OK (m, q') →
  (0 <= N)%Z ∧ m = fill_diagonal (rand np_random q (Z.to_nat N) (Z.to_nat N)) 0 ∧
  q' = q + Z.to_nat N * Z.to_nat N.
Proof.
  unfold initialize_markov_chain.
  destruct ((N <? 0) || (NPY_MAX_INTP <? 8 * N * N))%Z eqn:Hshape; [discriminate|].
  apply shape_accepted in Hshape as [H0 _].
  intros [= <- <-]. done.
Qed.

Lemma initialize_markov_chain_is_OK np_random N q :
  (0 <= N)%Z → (8 * N * N <= NPY_MAX_INTP)%Z →
  initialize_markov_chain np_random N q
    = OK (fill_diagonal (rand np_random q (Z.to_nat N) (Z.to_nat N)) 0,
          q + Z.to_nat N * Z.to_nat N).
Proof.
  intros H0 Hmax. unfold initialize_markov_chain.
  by rewrite (proj2 (shape_accepted N) (conj H0 Hmax)).
Qed.

Lemma initialize_markov_chain_Raise np_random N q e :
  initialize_markov_chain np_random N q = Raise e →
  e = ValueError ∧ ((N < 0)%Z ∨ (NPY_MAX_INTP < 8 * N * N)%Z).
Proof.
  unfold initialize_markov_chain.
  destruct ((N <? 0) || (NPY_MAX_INTP <? 8 * N * N))%Z eqn:Hshape; [|discriminate].
  intros [= <-]. split; [reflexivity | by apply shape_rejected].
Qed.

(** The initializer returns a square matrix with a zero diagonal. *)
Lemma initialize_markov_chain_diag_zero np_random N q m q' :
  initialize_markov_chain np_random N q = OK (m, q') → diag_zero m.
Proof.
  intros H. apply initialize_markov_chain_OK in H as (_ & -> & _).
  intros i x. apply fill_diagonal_cell.
Qed.

Lemma initialize_markov_chain_square np_random N q m q' :
  initialize_markov_chain np_random N q = OK (m, q') → square (Z.to_nat N) m.
Proof.
  intros H. apply initialize_markov_chain_OK in H as (_ & -> & _).
  unfold square. by rewrite fill_diagonal_shape, rand_shape.
Qed.

Lemma square_cell {A : Type} (n : nat) (m : list (list A)) (r c : nat) (x : A) :
  square n m → cell m r c = Some x → r < n ∧ c < n.
Proof.
  unfold square, shape. intros Hsq H. apply cell_Some in H as (row & Hr & Hc).
  assert (Hl : (length <$> m) !! r = Some (length row)) by (by rewrite list_lookup_fmap, Hr).
  rewrite Hsq in Hl. apply lookup_replicate in Hl as [Hl Hr'].
  apply lookup_lt_Some in Hc. lia.
Qed.

Lemma square_cell_is_Some {A : Type} (n : nat) (m : list (list A)) (r c : nat) :
  square n m → r < n → c < n → is_Some (cell m r c).
Proof.
  unfold square, shape. intros Hsq Hr Hc.
  assert (Hl : (length <$> m) !! r = Some n) by (rewrite Hsq; by apply lookup_replicate_2).
  rewrite list_lookup_fmap in Hl.
  destruct (m !! r) as [row|] eqn:Hrow; simpl in Hl; [|discriminate].
  injection Hl as Hl. destruct (lookup_lt_is_Some_2 row c) as [x Hx]; [lia|].
  exists x. apply cell_Some. eauto.
Qed.

(** ** Properties of a walk *)

Section WalkProperties.
Variable py_random : nat → Q.

Lemma walk_no_repeat m p s m' p' :
  diag_zero m → walk py_random m p s m' p' → no_repeat s.
Proof.
  intros Hd. unfold no_repeat.
  induction 1 as [r c m' Hre|s m1 p1 prev c m2 Hw IH Hlast Hre].
  - repeat constructor. simpl. by eapply reinforced_off_diagonal.
  - rewrite (transitions_snoc _ _ _ Hlast). apply Forall_app. split; [exact IH|].
    repeat constructor. simpl.
    eapply reinforced_off_diagonal; [|exact Hre]. by eapply walk_diag_zero.
Qed.

Lemma reinforced_square_lt n m r c x m' :
  square n m → reinforced m r c x m' → r < n ∧ c < n.
Proof.
  intros Hsq Hre. apply reinforced_in_range in Hre as (v & Hv & _).
  by eapply square_cell.
Qed.

Lemma walk_in_alphabet n m p s m' p' :
  square n m → walk py_random m p s m' p' → in_alphabet n s.
Proof.
  intros Hsq. unfold in_alphabet.
  induction 1 as [r c m' Hre|s m1 p1 prev c m2 Hw IH Hlast Hre].
  - destruct (reinforced_square_lt _ _ _ _ _ _ Hsq Hre). repeat constructor; done.
  - apply Forall_app. split; [exact IH|]. repeat constructor.
    assert (Hsq1 : square n m1).
    { unfold square. by rewrite (walk_shape _ _ _ _ _ _ Hw). }
    by destruct (reinforced_square_lt _ _ _ _ _ _ Hsq1 Hre).
Qed.

(** Cells that are not a transition of the sequence are untouched. *)
Lemma walk_frame m p s m' p' r c :
  walk py_random m p s m' p' → (r, c) ∉ transitions s → cell m' r c = cell m r c.
Proof.
  induction 1 as [r0 c0 m' Hre|s m1 p1 prev c0 m2 Hw IH Hlast Hre]; intros Hnot.
  - eapply reinforced_cell_ne; [exact Hre|]. intros [= -> ->]. apply Hnot. by left.
  - rewrite (transitions_snoc _ _ _ Hlast) in Hnot.
    rewrite <- IH by (intros Hin; apply Hnot, elem_of_app; by left).
    eapply reinforced_cell_ne; [exact Hre|]. intros [= -> ->].
    apply Hnot, elem_of_app. right. by left.
Qed.

(** The matrix reached is the result of one reinforcement per transition
    of the sequence, in order. *)
Lemma walk_reinforce_all m p s m' p' :
  walk py_random m p s m' p' →
  reinforce_all py_random (transitions s) m p = OK (m', p').
Proof.
  unfold reinforce_all.
  induction 1 as [r c m' Hre|s m1 p1 prev c m2 Hw IH Hlast Hre].
  - simpl. by rewrite (reinforced_reinforce _ _ _ _ _ Hre).
  - rewrite (transitions_snoc _ _ _ Hlast), for_each_app, IH. simpl.
    by rewrite (reinforced_reinforce _ _ _ _ _ Hre).
Qed.
End WalkProperties.

(** ** The sequence set *)

Section SequenceSet.
Variable py_random : nat → Q.

(** What the loop of [generate_sequences] keeps, whatever the number of
    iterations: the diagonal, the shape, and the form of each sequence. *)
Lemma generate_sequences_loop N (idx : list nat) (m : matrix) seqs0 m0 p0 seqs m' p' :
  diag_zero m0 → shape m0 = shape m →
  for_each idx (generate_sequences_body py_random N) (seqs0, m0, p0) = OK (seqs, m', p') →
  diag_zero m' ∧ shape m' = shape m ∧
  ∃ new, seqs = seqs0 ++ new ∧ length new = length idx ∧
    Forall (fun s => length s = 2 + (Z.to_nat N - 2) ∧ no_repeat s ∧
                     ∀ n, square n m → in_alphabet n s) new.
Proof.
  revert seqs0 m0 p0. induction idx as [|i idx IH]; intros seqs0 m0 p0 Hd Hsh Hrun.
  - injection Hrun as <- <- <-. repeat split; try done.
    exists []. by rewrite app_nil_r.
  - simpl in Hrun. apply bind_OK in Hrun as ([[seqs1 m1] p1] & Hbody & Hrun).
    unfold generate_sequences_body in Hbody.
    apply bind_OK in Hbody as ([[s m1'] p1'] & Hgen & Hbody).
    injection Hbody as <- <- <-.
    apply generate_sequence_walk in Hgen as [Hw Hlen].
    pose proof (walk_diag_zero _ _ _ _ _ _ Hd Hw) as Hd1.
    pose proof (walk_shape _ _ _ _ _ _ Hw) as Hsh1.
    destruct (IH _ _ _ Hd1 (eq_trans Hsh1 Hsh) Hrun) as (Hd' & Hsh' & new & -> & Hnew & Hall).
    repeat split; try done.
    exists (s :: new). rewrite <- app_assoc. repeat split; [simpl; lia|].
    constructor; [|exact Hall]. repeat split.
    + exact Hlen.
    + eapply walk_no_repeat; [exact Hd | exact Hw].
    + intros n Hsq. eapply walk_in_alphabet; [|exact Hw].
      unfold square in *. congruence.
Qed.

Lemma generate_sequences_OK N M (m : matrix) p seqs m' p' :
  diag_zero m →
  generate_sequences py_random N M m p = OK (seqs, m', p') →
  diag_zero m' ∧ shape m' = shape m ∧ length seqs = Z.to_nat M ∧
  Forall (fun s => length s = 2 + (Z.to_nat N - 2) ∧ no_repeat s ∧
                   ∀ n, square n m → in_alphabet n s) seqs.
Proof.
  intros Hd Hrun. unfold generate_sequences in Hrun.
  apply generate_sequences_loop with (m := m) in Hrun
    as (Hd' & Hsh & new & -> & Hlen & Hall); try done.
  repeat split; try done. simpl. rewrite Hlen, range_length. lia.
Qed.
End SequenceSet.

(** A sequence returned by the builder on a matrix with a zero diagonal
    has the length asked for and no immediate repeat. *)
Lemma generate_sequence_length_no_repeat py_random N m p s m' p' :
  (2 <= N)%Z → diag_zero m →
  generate_sequence py_random N m p = OK (s, m', p') →
  Z.of_nat (length s) = N ∧ no_repeat s.
Proof.
  intros HN Hd H. apply generate_sequence_walk in H as [Hw Hlen].
  split; [lia | eapply walk_no_repeat; [exact Hd | exact Hw]].
Qed.

(** C1. For N >= 2 and M >= 1, on the matrix produced by the initializer,
    every sequence of the set returned by [generate_sequences] (each one
    the result of a call of the builder) has length exactly N and no two
    consecutive equal elements; the set holds M sequences. *)
Theorem generated_sequences_length_no_repeat
    np_random py_random N M q m0 q' p seqs m' p' :
  (2 <= N)%Z → (1 <= M)%Z →
  initialize_markov_chain np_random N q = OK (m0, q') →
  generate_sequences py_random N M m0 p = OK (seqs, m', p') →
  Z.of_nat (length seqs) = M ∧
  Forall (fun s => Z.of_nat (length s) = N ∧ no_repeat s) seqs.
Proof.
  intros HN HM Hinit Hgen.
  apply initialize_markov_chain_diag_zero in Hinit.
  apply generate_sequences_OK in Hgen as (_ & _ & Hlen & Hall); [|exact Hinit].
  split; [lia|]. eapply Forall_impl; [exact Hall|].
  intros s (Hs & Hnr & _). split; [lia | exact Hnr].
Qed.

Lemma generated_sequences_length_no_repeat_witness :
  Z.of_nat (length [[0; 1; 0]; [2; 0; 2]]) = 2%Z ∧
  Forall (fun s => Z.of_nat (length s) = 3%Z ∧ no_repeat s) [[0; 1; 0]; [2; 0; 2]].
Proof.
  eapply (generated_sequences_length_no_repeat np_example py_example 3 2 0 _ _ 0);
    [lia | lia | vm_compute; reflexivity | vm_compute; reflexivity].
Defined.

(** C2. In a run with N >= 2 the diagonal of the maintained matrix is
    zero right after initialization, after any number [j] of completed
    calls of the builder, and inside the next call after the seed update
    and after each of the first [k] updates of the extension loop: that is,
    after every single cell update. *)
Theorem diagonal_zero_at_every_step
    np_random py_random N M q m0 q' p j k seqs m1 p1 s m2 p2 :
  (2 <= N)%Z →
  initialize_markov_chain np_random N q = OK (m0, q') →
  for_each (take j (range 0 M)) (generate_sequences_body py_random N) ([], m0, p)
    = OK (seqs, m1, p1) →
  build py_random (take k (range 2 N)) m1 p1 = OK (s, m2, p2) →
  diag_zero m0 ∧ diag_zero m1 ∧ diag_zero m2.
Proof.
  intros HN Hinit Hcalls Hsteps.
  apply initialize_markov_chain_diag_zero in Hinit.
  apply generate_sequences_loop with (m := m0) in Hcalls as (Hd1 & _); try done.
  unfold range in Hsteps. rewrite take_seq in Hsteps.
  apply build_walk in Hsteps as [Hw _].
  repeat split; try done. by eapply walk_diag_zero.
Qed.

Lemma diagonal_zero_at_every_step_witness :
  diag_zero m_example ∧
  diag_zero [[0; 3#2; 5#10]; [5#4; 0; 9#10]; [3#10; 4#10; 0]]%Q ∧
  diag_zero [[0; 3#2; 5#10]; [5#4; 0; 9#10]; [7#4; 4#10; 0]]%Q.
Proof.
  eapply (diagonal_zero_at_every_step np_example py_example 3 2 0 _ _ 0 1 0 _ _ _ _ _ _);
    [lia | vm_compute; reflexivity | vm_compute; reflexivity | vm_compute; reflexivity].
Defined.

(** ** Reinforcement *)




(** Exact addition is such a rounding, and so is the rounding to the
    nearest half. *)
Lemma exact_integer_preserving_rounding : integer_preserving_rounding id.
Proof. split; [intros x y H; exact H | intros k _; reflexivity]. Qed.

Lemma round_to_halves_integer_preserving : integer_preserving_rounding round_to_halves.
Proof.
  split.
  - intros x y Hxy. unfold round_to_halves. apply Qmult_le_compat_r; [|by vm_compute].
    rewrite <- Zle_Qle. apply Qfloor_resp_le. lra.
  - intros k _. unfold round_to_halves.
    assert (Hfloor : Qfloor (2 * inject_Z k + (1 # 2)) = (2 * k)%Z).
    { pose proof (Qfloor_le (2 * inject_Z k + (1 # 2))) as H1.
      pose proof (Qlt_floor (2 * inject_Z k + (1 # 2))) as H2.
      rewrite inject_Z_plus in H2. change (inject_Z 1) with 1%Q in H2.
      assert (Hlo : (2 * k < Qfloor (2 * inject_Z k + (1 # 2)) + 1)%Z).
      { rewrite Zlt_Qlt, inject_Z_plus, inject_Z_mult.
        change (inject_Z 1) with 1%Q. change (inject_Z 2) with 2%Q. lra. }
      assert (Hhi : (Qfloor (2 * inject_Z k + (1 # 2)) < 2 * k + 1)%Z).
      { rewrite Zlt_Qlt, inject_Z_plus, inject_Z_mult.
        change (inject_Z 1) with 1%Q. change (inject_Z 2) with 2%Q. lra. }
      lia. }
    rewrite Hfloor, inject_Z_mult. change (inject_Z 2) with 2%Q. field.
Qed.

(** The rounded sum of an integer and a draw below 1 can be the next
    integer: to the nearest half, 1 + 9/10 is 2, as in [float64]
    1 + (1 - 2^-53) is 2. *)
Lemma rounded_sum_reaches_next_integer :
  (9 # 10 < 1)%Q ∧ (round_to_halves (inject_Z 1 + (9 # 10)) == inject_Z 1 + 1)%Q.
Proof. split; reflexivity. Qed.


Lemma replay_bounds (draws : list Q) (k : nat) :
  Forall (fun x => (0 <= x)%Q ∧ (x < 1)%Q) draws →
  (0 <= replay draws k)%Q ∧ (replay draws k < 1)%Q.
Proof.
  intros H. unfold replay. revert k.
  induction H as [|x l Hx _ IH]; intros [|k]; simpl; auto; by vm_compute.
Qed.

Lemma py_example_bounds (k : nat) : (0 <= py_example k)%Q ∧ (py_example k < 1)%Q.
Proof. apply replay_bounds. repeat constructor; by vm_compute. Qed.


(** ** Alphabet *)

(** C6, as amended. For N >= 2, on the matrix produced by the
    initializer, every generated sequence has as many elements as the
    alphabet has symbols and every element is a symbol of [0, N). *)
Theorem generated_sequences_in_alphabet
    np_random py_random N M q m0 q' p seqs m' p' :
  (2 <= N)%Z →
  initialize_markov_chain np_random N q = OK (m0, q') →
  generate_sequences py_random N M m0 p = OK (seqs, m', p') →
  Forall (fun s => Z.of_nat (length s) = N ∧ in_alphabet (Z.to_nat N) s) seqs.
Proof.
  intros HN Hinit Hgen.
  pose proof (initialize_markov_chain_square _ _ _ _ _ Hinit) as Hsq.
  apply initialize_markov_chain_diag_zero in Hinit.
  apply generate_sequences_OK in Hgen as (_ & _ & _ & Hall); [|exact Hinit].
  eapply Forall_impl; [exact Hall|].
  intros s (Hs & _ & Hin). split; [lia | by apply Hin].
Qed.

Lemma generated_sequences_in_alphabet_witness :
  Forall (fun s => Z.of_nat (length s) = 3%Z ∧ in_alphabet (Z.to_nat 3) s)
    [[0; 1; 0]; [2; 0; 2]].
Proof.
  eapply (generated_sequences_in_alphabet np_example py_example 3 2 0 _ _ 0);
    [lia | vm_compute; reflexivity | vm_compute; reflexivity].
Defined.

(** C6, as stated, fails: for N = 3 the initializer can produce
    [m_example], on which the builder returns [0; 1; 0], where the symbol 2
    does not occur. *)
Lemma sequence_misses_a_symbol :
  initialize_markov_chain np_example 3 0 = OK (m_example, 9) ∧
  generate_sequence py_example 3 m_example 0
    = OK ([0; 1; 0], [[0; 3#2; 5#10]; [5#4; 0; 9#10]; [3#10; 4#10; 0]]%Q, 2) ∧
  ¬ covers_alphabet 3 [0; 1; 0].
Proof.
  split; [vm_compute; reflexivity|]. split; [vm_compute; reflexivity|].
  intros H. specialize (H 2 ltac:(lia)).
  repeat (apply elem_of_cons in H as [H|H]; [discriminate|]). inversion H.
Qed.

(** ** Frame of one call *)

(** C10. A call of the builder with N >= 2 that returns [s] leaves the
    shape of the matrix as it was, leaves every cell that is not a
    transition [(s[i], s[i+1])] of [s] as it was, and its effect on the
    matrix and on the stream is exactly one reinforcement per transition
    of [s], in order: N - 1 reinforcements. *)
Theorem generate_sequence_frame py_random N (m : matrix) p s m' p' :
  (2 <= N)%Z →
  generate_sequence py_random N m p = OK (s, m', p') →
  shape m' = shape m ∧
  (∀ r c, (r, c) ∉ transitions s → cell m' r c = cell m r c) ∧
  Z.of_nat (length (transitions s)) = (N - 1)%Z ∧
  (∀ i a b, transitions s !! i = Some (a, b) ↔ s !! i = Some a ∧ s !! S i = Some b) ∧
  reinforce_all py_random (transitions s) m p = OK (m', p').
Proof.
  intros HN H. apply generate_sequence_walk in H as [Hw Hlen].
  split; [by eapply walk_shape|].
  split; [intros r c; by eapply walk_frame|].
  split; [rewrite transitions_length; lia|].
  split; [intros i a b; apply transitions_lookup|].
  by apply walk_reinforce_all.
Qed.

Lemma generate_sequence_frame_witness :
  shape [[0; 3#2; 5#10]; [5#4; 0; 9#10]; [3#10; 4#10; 0]]%Q = shape m_example ∧
  (∀ r c, (r, c) ∉ transitions [0; 1; 0] →
     cell [[0; 3#2; 5#10]; [5#4; 0; 9#10]; [3#10; 4#10; 0]]%Q r c = cell m_example r c) ∧
  Z.of_nat (length (transitions [0; 1; 0])) = (3 - 1)%Z ∧
  (∀ i a b, transitions [0; 1; 0] !! i = Some (a, b) ↔
            [0; 1; 0] !! i = Some a ∧ [0; 1; 0] !! S i = Some b) ∧
  reinforce_all py_example (transitions [0; 1; 0]) m_example 0
    = OK ([[0; 3#2; 5#10]; [5#4; 0; 9#10]; [3#10; 4#10; 0]]%Q, 2).
Proof.
  apply (generate_sequence_frame py_example 3 m_example 0);
    [lia | vm_compute; reflexivity].
Defined.

(** ** Degenerate inputs *)

Lemma nonzero_values_zeros (n : nat) :
  nonzero_values (replicate n (replicate n 0%Q)) = [].
Proof.
  destruct (nonzero_values _) as [|v l] eqn:E; [reflexivity|].
  assert (Hv : v ∈ nonzero_values (replicate n (replicate n 0%Q))) by (rewrite E; by left).
  apply elem_of_nonzero_values in Hv as (Hnz & r & c & Hc).
  apply cell_Some in Hc as (row & Hr & Hc).
  apply lookup_replicate in Hr as [-> _]. apply lookup_replicate in Hc as [-> _].
  discriminate.
Qed.

(** On a matrix of zeros the seed search has nothing to choose from. *)
Lemma generate_sequence_zeros py_random N n p :
  generate_sequence py_random N (replicate n (replicate n 0%Q)) p = Raise ValueError.
Proof.
  unfold generate_sequence, build, seed. by rewrite nonzero_values_zeros.
Qed.

Lemma initialize_markov_chain_small np_random N q :
  (0 <= N)%Z → (N < 2)%Z →
  initialize_markov_chain np_random N q
  = OK (replicate (Z.to_nat N) (replicate (Z.to_nat N) 0%Q),
        q + Z.to_nat N * Z.to_nat N).
Proof.
  intros H0 H2. assert (N = 0 ∨ N = 1)%Z as [-> | ->] by lia; reflexivity.
Qed.

Lemma generate_sequences_first_raises py_random N M (m : matrix) p e :
  (1 <= M)%Z →
  generate_sequence py_random N m p = Raise e →
  generate_sequences py_random N M m p = Raise e.
Proof.
  intros HM Hgen. unfold generate_sequences, range.
  destruct (Z.to_nat M - Z.to_nat 0) as [|k] eqn:E; [lia|].
  simpl. by rewrite Hgen.
Qed.

(** C7, as amended. For N < 2 and M >= 1 the run ends with a
    [ValueError] and writes nothing. For N < 0 the initializer raises it.
    For N = 0 and N = 1 the initializer succeeds and returns the N x N
    matrix of zeros, on which the builder raises it from the minimum
    search of the seed step, before any element is chosen. *)
Theorem small_dimension_raises_ValueError np_random py_random N M subfolder q p :
  (N < 2)%Z → (1 <= M)%Z →
  (if (N <? 0)%Z
   then initialize_markov_chain np_random N q = Raise ValueError
   else initialize_markov_chain np_random N q
          = OK (replicate (Z.to_nat N) (replicate (Z.to_nat N) 0%Q),
                q + Z.to_nat N * Z.to_nat N) ∧
        generate_sequence py_random N
          (replicate (Z.to_nat N) (replicate (Z.to_nat N) 0%Q)) p
          = Raise ValueError) ∧
  generate_balanced_sequences np_random py_random N M subfolder
    = ([], Raise ValueError).
Proof.
  intros HN HM. unfold generate_balanced_sequences, compute_balanced_sequences.
  destruct (Z.ltb_spec N 0) as [Hneg|Hpos].
  - assert (Hinit : ∀ q, initialize_markov_chain np_random N q = Raise ValueError).
    { intros q0. unfold initialize_markov_chain.
      by destruct (Z.ltb_spec N 0); [|lia]. }
    split; [apply Hinit|]. by rewrite Hinit.
  - split.
    + split; [by apply initialize_markov_chain_small|].
      apply generate_sequence_zeros.
    + rewrite initialize_markov_chain_small by done. simpl.
      rewrite (generate_sequences_first_raises _ _ _ _ _ ValueError HM); [done|].
      apply generate_sequence_zeros.
Qed.

Lemma small_dimension_raises_ValueError_witness :
  (if (1 <? 0)%Z
   then initialize_markov_chain np_example 1 0 = Raise ValueError
   else initialize_markov_chain np_example 1 0
          = OK (replicate (Z.to_nat 1) (replicate (Z.to_nat 1) 0%Q),
                0 + Z.to_nat 1 * Z.to_nat 1) ∧
        generate_sequence py_example 1
          (replicate (Z.to_nat 1) (replicate (Z.to_nat 1) 0%Q)) 0
          = Raise ValueError) ∧
  generate_balanced_sequences np_example py_example 1 2 "out"
    = ([], Raise ValueError).
Proof.
  apply (small_dimension_raises_ValueError np_example py_example 1 2 "out" 0 0); lia.
Defined.

(** C7, as stated, fails: for N = 1 the initializer reports no error at
    all, and the error reported by the builder and by the run is a
    [ValueError]. *)
Lemma small_dimension_not_rejected :
  initialize_markov_chain np_example 1 0 = OK ([[0%Q]], 1) ∧
  generate_sequence py_example 1 [[0%Q]] 0 = Raise ValueError ∧
  generate_balanced_sequences np_example py_example 1 2 "out" = ([], Raise ValueError).
Proof. repeat split; vm_compute; reflexivity. Qed.

(** C8, as amended. For M < 1 [generate_sequences] returns the empty set
    and leaves the matrix and the stream as they were, and the statistics
    raise an [IndexError] on [sequences[0]]. Hence, whenever the
    initializer returns, the run ends with that [IndexError] and writes
    nothing; whenever the initializer raises (N < 0, or N x N beyond
    numpy's size limit), the run ends with the initializer's exception and
    writes nothing. No count is rejected as such. *)
Theorem empty_count_raises_IndexError np_random py_random N M subfolder (m : matrix) p :
  (M < 1)%Z →
  generate_sequences py_random N M m p = OK ([], m, p) ∧
  calculate_transition_probability_matrix [] = Raise IndexError ∧
  (∀ m0 q', initialize_markov_chain np_random N 0 = OK (m0, q') →
     generate_balanced_sequences np_random py_random N M subfolder
       = ([], Raise IndexError)) ∧
  (∀ e, initialize_markov_chain np_random N 0 = Raise e →
     generate_balanced_sequences np_random py_random N M subfolder
       = ([], Raise e)).
Proof.
  intros HM.
  assert (Hgen : ∀ (m : matrix) p, generate_sequences py_random N M m p = OK ([], m, p)).
  { intros m0 p0. unfold generate_sequences, range.
    by replace (Z.to_nat M - Z.to_nat 0) with 0 by lia. }
  split; [apply Hgen|]. split; [reflexivity|].
  unfold generate_balanced_sequences, compute_balanced_sequences.
  split.
  - intros m0 q' ->. rewrite bind_OK_l. cbv beta iota. by rewrite Hgen.
  - by intros e ->.
Qed.

Lemma empty_count_raises_IndexError_witness :
  generate_sequences py_example 3 0 m_example 0 = OK ([], m_example, 0) ∧
  calculate_transition_probability_matrix [] = Raise IndexError ∧
  initialize_markov_chain np_example 3 0 = OK (m_example, 9) ∧
  generate_balanced_sequences np_example py_example 3 0 "out" = ([], Raise IndexError).
Proof.
  assert (Hinit : initialize_markov_chain np_example 3 0 = OK (m_example, 9))
    by (vm_compute; reflexivity).
  destruct (empty_count_raises_IndexError np_example py_example 3 0 "out" m_example 0)
    as (Hgen & Hstat & Hrun & _); [lia|].
  exact (conj Hgen (conj Hstat (conj Hinit (Hrun _ _ Hinit)))).
Defined.

(** C8, as stated, fails: for M = 0 [generate_sequences] returns an empty
    result, and the run fails later, in the statistics, with an
    [IndexError]. *)
Lemma empty_count_not_rejected :
  generate_sequences py_example 3 0 m_example 0 = OK ([], m_example, 0) ∧
  generate_balanced_sequences np_example py_example 3 0 "out" = ([], Raise IndexError).
Proof. split; vm_compute; reflexivity. Qed.

(** ** Determinism *)

Section Agreement.
Variables py1 py2 : nat → Q.

Lemma seed_agree m p : py1 p = py2 p → seed py1 m p = seed py2 m p.
Proof. intros H. unfold seed. by rewrite H. Qed.

Lemma extend_agree i st : py1 st.2 = py2 st.2 → extend py1 i st = extend py2 i st.
Proof. destruct st as [[s m] p]. simpl. intros H. unfold extend. by rewrite H. Qed.

Lemma loop_agree (idx : list nat) : ∀ s m p,
  (∀ k, p ≤ k < p + length idx → py1 k = py2 k) →
  for_each idx (extend py1) (s, m, p) = for_each idx (extend py2) (s, m, p).
Proof.
  induction idx as [|i idx IH]; intros s m p H; [reflexivity|].
  rewrite !for_each_cons.
  rewrite (extend_agree i (s, m, p)) by (apply H; simpl; lia).
  destruct (extend py2 i (s, m, p)) as [[[s' m'] p']|e] eqn:E; [|reflexivity].
  change (for_each idx (extend py1) (s', m', p') = for_each idx (extend py2) (s', m', p')).
  apply extend_OK in E as (_ & _ & _ & _ & _ & ->).
  apply IH. intros k Hk. apply H. simpl. lia.
Qed.

Lemma build_agree (idx : list nat) m p :
  (∀ k, p ≤ k < p + S (length idx) → py1 k = py2 k) →
  build py1 idx m p = build py2 idx m p.
Proof.
  intros H. unfold build. rewrite (seed_agree m p) by (apply H; lia).
  destruct (seed py2 m p) as [[[s' m'] p']|e] eqn:E; [|reflexivity].
  apply seed_OK in E as (_ & _ & _ & _ & ->).
  change (for_each idx (extend py1) (s', m', S p) = for_each idx (extend py2) (s', m', S p)).
  apply loop_agree. intros k Hk. apply H. lia.
Qed.

(** One call of the builder reads the stream at [p] and at the
    [Z.to_nat N - 2] positions that follow, and nowhere else. *)
Lemma generate_sequence_agree N m p :
  (∀ k, p ≤ k < p + S (Z.to_nat N - 2) → py1 k = py2 k) →
  generate_sequence py1 N m p = generate_sequence py2 N m p.
Proof.
  intros H. unfold generate_sequence. apply build_agree.
  by rewrite range_length.
Qed.

Lemma generate_sequence_position N m p s m' p' :
  generate_sequence py2 N m p = OK (s, m', p') → p' = p + S (Z.to_nat N - 2).
Proof.
  intros H. apply generate_sequence_walk in H as [Hw Hlen].
  apply walk_position in Hw. rewrite transitions_length in Hw. lia.
Qed.

Lemma generate_sequences_body_agree N i seqs m p :
  (∀ k, p ≤ k < p + S (Z.to_nat N - 2) → py1 k = py2 k) →
  generate_sequences_body py1 N i (seqs, m, p)
  = generate_sequences_body py2 N i (seqs, m, p).
Proof.
  intros H. unfold generate_sequences_body. by rewrite generate_sequence_agree.
Qed.

Lemma generate_sequences_body_position N i seqs m p seqs' m' p' :
  generate_sequences_body py2 N i (seqs, m, p) = OK (seqs', m', p') →
  p' = p + S (Z.to_nat N - 2).
Proof.
  unfold generate_sequences_body. intros H.
  apply bind_OK in H as ([[s m1] p1] & Hgen & H). injection H as <- <- <-.
  by eapply generate_sequence_position.
Qed.

Lemma generate_sequences_loop_agree N (idx : list nat) : ∀ seqs m p,
  (∀ k, p ≤ k < p + length idx * S (Z.to_nat N - 2) → py1 k = py2 k) →
  for_each idx (generate_sequences_body py1 N) (seqs, m, p)
  = for_each idx (generate_sequences_body py2 N) (seqs, m, p).
Proof.
  induction idx as [|i idx IH]; intros seqs m p H; [reflexivity|].
  rewrite !for_each_cons.
  rewrite generate_sequences_body_agree by (intros k Hk; apply H; cbn [length]; nia).
  destruct (generate_sequences_body py2 N i (seqs, m, p)) as [[[seqs' m'] p']|e] eqn:E;
    [|reflexivity].
  apply generate_sequences_body_position in E as ->.
  change (for_each idx (generate_sequences_body py1 N)
            (seqs', m', p + S (Z.to_nat N - 2))
          = for_each idx (generate_sequences_body py2 N)
              (seqs', m', p + S (Z.to_nat N - 2))).
  apply IH. intros k Hk. apply H. cbn [length]. nia.
Qed.

Lemma generate_sequences_agree N M m p :
  (∀ k, p ≤ k < p + Z.to_nat M * S (Z.to_nat N - 2) → py1 k = py2 k) →
  generate_sequences py1 N M m p = generate_sequences py2 N M m p.
Proof.
  intros H. unfold generate_sequences. apply generate_sequences_loop_agree.
  intros k Hk. apply H. rewrite range_length in Hk. lia.
Qed.
End Agreement.

Lemma rand_agree np1 np2 q n k :
  (∀ i, q ≤ i < q + n * k → np1 i = np2 i) →
  rand np1 q n k = rand np2 q n k.
Proof.
  intros H. unfold rand. apply list_fmap_ext. intros _ r Hr%list_elem_of_lookup_2.
  apply list_fmap_ext. intros _ c Hc%list_elem_of_lookup_2.
  apply elem_of_seq in Hr, Hc. apply H. nia.
Qed.

Lemma initialize_markov_chain_agree np1 np2 N q :
  (∀ i, q ≤ i < q + Z.to_nat N * Z.to_nat N → np1 i = np2 i) →
  initialize_markov_chain np1 N q = initialize_markov_chain np2 N q.
Proof.
  intros H. unfold initialize_markov_chain. by rewrite (rand_agree np1 np2).
Qed.

(** C9. The run is a function of N, M and of the draws it consumes: two
    runs whose numpy streams agree on the first N * N draws and whose
    Python streams agree on the first M * (1 + (N - 2)) draws compute the
    same sequence set and the same probability matrix, or end with the
    same exception, and write the same files. In particular two runs on
    the same streams do. *)
Theorem generation_deterministic np1 np2 py1 py2 N M subfolder :
  (∀ k, k < Z.to_nat N * Z.to_nat N → np1 k = np2 k) →
  (∀ k, k < Z.to_nat M * S (Z.to_nat N - 2) → py1 k = py2 k) →
  compute_balanced_sequences np1 py1 N M = compute_balanced_sequences np2 py2 N M ∧
  generate_balanced_sequences np1 py1 N M subfolder
  = generate_balanced_sequences np2 py2 N M subfolder.
Proof.
  intros Hnp Hpy.
  assert (H : compute_balanced_sequences np1 py1 N M
              = compute_balanced_sequences np2 py2 N M).
  { unfold compute_balanced_sequences.
    rewrite (initialize_markov_chain_agree np1 np2) by (intros i Hi; apply Hnp; lia).
    destruct (initialize_markov_chain np2 N 0) as [[m q]|e]; simpl; [|reflexivity].
    by rewrite (generate_sequences_agree py1 py2) by (intros k Hk; apply Hpy; lia). }
  split; [exact H|]. unfold generate_balanced_sequences. by rewrite H.
Qed.

Lemma generation_deterministic_witness :
  compute_balanced_sequences np_example py_example 3 2
  = compute_balanced_sequences np_example' py_example' 3 2 ∧
  generate_balanced_sequences np_example py_example 3 2 "out"
  = generate_balanced_sequences np_example' py_example' 3 2 "out".
Proof.
  apply (generation_deterministic np_example np_example' py_example py_example' 3 2 "out").
  - intros k Hk. do 9 (destruct k as [|k]; [reflexivity|]). simpl in Hk. lia.
  - intros k Hk. do 4 (destruct k as [|k]; [reflexivity|]). simpl in Hk. lia.
Defined.

(** ** Counting transitions *)

Lemma of_count_S (k : nat) : fadd (of_count k) (Fin 1) = of_count (S k).
Proof.
  unfold of_count, fadd, inject_Z, Qplus. simpl. do 2 f_equal. lia.
Qed.

Lemma of_count_plus (j k : nat) : fadd (of_count j) (of_count k) = of_count (j + k).
Proof.
  unfold of_count, fadd, inject_Z, Qplus. simpl. do 2 f_equal. lia.
Qed.

Lemma count_transitions_snoc ts t a b :
  count_transitions (ts ++ [t]) a b
  = count_transitions ts a b + (if decide (t = (a, b)) then 1 else 0).
Proof.
  unfold count_transitions. rewrite filter_app, length_app. f_equal.
  rewrite filter_cons, filter_nil. by destruct (decide (t = (a, b))).
Qed.

Lemma tabulate_lookup N f a :
  a < N → tabulate N f !! a = Some ((fun b => of_count (f a b)) <$> seq 0 N).
Proof.
  intros Ha. unfold tabulate. by rewrite list_lookup_fmap, lookup_seq_lt.
Qed.

Lemma tabulate_length N f : length (tabulate N f) = N.
Proof. unfold tabulate. by rewrite length_fmap, length_seq. Qed.

Lemma zeros_tabulate N : zeros N N = tabulate N (count_transitions []).
Proof.
  unfold zeros, tabulate. apply list_eq. intros a.
  rewrite list_lookup_fmap. destruct (decide (a < N)) as [Ha|Ha].
  - rewrite lookup_replicate_2, lookup_seq_lt by done. simpl. f_equal.
    apply list_eq. intros b. rewrite list_lookup_fmap.
    destruct (decide (b < N)) as [Hb|Hb].
    + by rewrite lookup_replicate_2, lookup_seq_lt.
    + rewrite lookup_seq_ge by lia. apply lookup_replicate_None. lia.
  - rewrite lookup_seq_ge by lia. apply lookup_replicate_None. lia.
Qed.

(** One increment of the matrix of counts records one more transition. *)
Lemma increment_tabulate N ts a b :
  a < N → b < N →
  increment (tabulate N (count_transitions ts)) a b
  = OK (tabulate N (count_transitions (ts ++ [(a, b)]))).
Proof.
  intros Ha Hb. unfold increment.
  rewrite (proj2 (getitem_OK _ a _) (tabulate_lookup N _ a Ha)), bind_OK_l.
  assert (Hrow : ((fun b => of_count (count_transitions ts a b)) <$> seq 0 N) !! b
                 = Some (of_count (count_transitions ts a b))).
  { by rewrite list_lookup_fmap, lookup_seq_lt. }
  rewrite (proj2 (getitem_OK _ b _) Hrow), bind_OK_l.
  rewrite of_count_S. f_equal. apply list_eq. intros a'.
  destruct (decide (a' = a)) as [->|Hne].
  - rewrite list_lookup_insert_eq by (by rewrite tabulate_length).
    rewrite tabulate_lookup by done. f_equal. apply list_eq. intros b'.
    destruct (decide (b' = b)) as [->|Hne'].
    + rewrite list_lookup_insert_eq by (by rewrite length_fmap, length_seq).
      rewrite list_lookup_fmap, lookup_seq_lt by done. simpl.
      rewrite count_transitions_snoc, decide_True by done.
      do 2 f_equal. lia.
    + rewrite list_lookup_insert_ne by done. rewrite !list_lookup_fmap.
      destruct (seq 0 N !! b') as [b''|] eqn:E; simpl; [|reflexivity].
      apply lookup_seq in E as [-> _].
      rewrite count_transitions_snoc, decide_False by (simpl; congruence).
      do 2 f_equal. simpl. lia.
  - rewrite list_lookup_insert_ne by done. unfold tabulate.
    rewrite !list_lookup_fmap.
    destruct (seq 0 N !! a') as [a''|] eqn:E; simpl; [|reflexivity].
    apply lookup_seq in E as [-> _]. f_equal.
    apply list_fmap_ext. intros _ b' _.
    rewrite count_transitions_snoc, decide_False by (simpl; congruence).
    f_equal. simpl. lia.
Qed.

(** The loop over one sequence of length N records its transitions. *)
Lemma count_sequence_tabulate N ts s :
  length s = N → in_alphabet N s →
  count_sequence N s (tabulate N (count_transitions ts))
  = OK (tabulate N (count_transitions (ts ++ transitions s))).
Proof.
  intros Hlen Hin. unfold count_sequence, range.
  replace (Z.to_nat (Z.of_nat N - 1) - Z.to_nat 0) with (N - 1) by lia.
  change (Z.to_nat 0) with 0.
  assert (Hj : ∀ j, j ≤ N - 1 →
    for_each (seq 0 j)
      (fun i t => a ← getitem s i; b ← getitem s (i + 1); increment t a b)
      (tabulate N (count_transitions ts))
    = OK (tabulate N (count_transitions (ts ++ take j (transitions s))))).
  { induction j as [|j IH]; intros Hle.
    - simpl. by rewrite app_nil_r.
    - rewrite seq_S, for_each_app, IH by lia. rewrite bind_OK_l. simpl seq.
      rewrite for_each_cons. simpl for_each. rewrite bind_OK_r.
      destruct (lookup_lt_is_Some_2 s j) as [a Ha]; [lia|].
      destruct (lookup_lt_is_Some_2 s (S j)) as [b Hb]; [lia|].
      change (0 + j) with j. replace (j + 1) with (S j) by lia.
      rewrite (proj2 (getitem_OK _ _ _) Ha), bind_OK_l.
      rewrite (proj2 (getitem_OK _ _ _) Hb), bind_OK_l.
      unfold in_alphabet in Hin. rewrite Forall_lookup in Hin.
      rewrite increment_tabulate by eauto.
      rewrite (take_S_r _ _ (a, b)) by (by apply transitions_lookup).
      by rewrite app_assoc. }
  rewrite Hj by lia. rewrite firstn_all2; [done|].
  rewrite transitions_length. lia.
Qed.

(** The loop over the set records the transitions of all its sequences. *)
Lemma count_sequences_tabulate N sequences : ∀ ts,
  Forall (fun s => length s = N ∧ in_alphabet N s) sequences →
  for_each sequences (count_sequence N) (tabulate N (count_transitions ts))
  = OK (tabulate N (count_transitions (ts ++ all_transitions sequences))).
Proof.
  unfold all_transitions.
  induction sequences as [|s sequences IH]; intros ts Hall.
  - simpl. by rewrite app_nil_r.
  - apply Forall_cons in Hall as [[Hlen Hin] Hall].
    rewrite for_each_cons, count_sequence_tabulate, bind_OK_l by done.
    rewrite IH by done. simpl. by rewrite app_assoc.
Qed.

(** The normalization loop divides every row by its own sum. *)
Lemma normalize_rows (t : fmatrix) (k : nat) :
  k ≤ length t →
  for_each (seq 0 k) normalize_row t = OK ((normalized <$> take k t) ++ drop k t).
Proof.
  induction k as [|k IH]; intros Hk.
  - simpl. by rewrite drop_0.
  - rewrite seq_S, for_each_app, IH by lia. rewrite bind_OK_l. simpl seq.
    rewrite for_each_cons. simpl for_each. rewrite bind_OK_r.
    destruct (lookup_lt_is_Some_2 t k) as [row Hrow]; [lia|].
    assert (Hlen : length (normalized <$> take k t) = k).
    { rewrite length_fmap, length_take. lia. }
    change (0 + k) with k. unfold normalize_row.
    assert (Hget : ((normalized <$> take k t) ++ drop k t) !! k = Some row).
    { rewrite lookup_app_r by lia. rewrite Hlen, Nat.sub_diag, lookup_drop.
      by rewrite Nat.add_0_r. }
    rewrite (proj2 (getitem_OK _ _ _) Hget), bind_OK_l. f_equal.
    rewrite insert_app_r_alt by lia. rewrite Hlen, Nat.sub_diag.
    rewrite (drop_S _ _ _ Hrow). simpl.
    rewrite (take_S_r _ _ _ Hrow), fmap_app, <- app_assoc. reflexivity.
Qed.

Lemma np_sum_counts (g : nat → nat) (l : list nat) (acc : nat) :
  fold_left fadd ((fun b => of_count (g b)) <$> l) (of_count acc)
  = of_count (acc + sum_list (g <$> l)).
Proof.
  revert acc. induction l as [|b l IH]; intros acc.
  - simpl. by rewrite Nat.add_0_r.
  - rewrite !fmap_cons. cbn [fold_left sum_list sum_list_with].
    rewrite of_count_plus, IH. unfold id. f_equal. lia.
Qed.

Lemma normalized_tabulate N ts :
  normalized <$> tabulate N (count_transitions ts)
  = (fun a =>
       (fun b => fdiv (of_count (count_transitions ts a b))
                      (of_count (row_total N ts a))) <$> seq 0 N) <$> seq 0 N.
Proof.
  unfold tabulate. rewrite <- list_fmap_compose.
  apply list_fmap_ext. intros _ a _. simpl. unfold normalized.
  rewrite <- list_fmap_compose. apply list_fmap_ext. intros _ b _. simpl.
  f_equal. unfold np_sum. change (Fin 0) with (of_count 0).
  by rewrite np_sum_counts.
Qed.

(** The code computes the matrix of the specification. *)
Lemma calculate_transition_probability_matrix_spec sequences N :
  sequences ≠ [] →
  Forall (fun s => length s = N ∧ in_alphabet N s) sequences →
  calculate_transition_probability_matrix sequences
  = OK (probability_matrix_spec N sequences).
Proof.
  intros Hne Hall. unfold calculate_transition_probability_matrix.
  destruct sequences as [|first sequences]; [done|].
  pose proof (Forall_inv Hall) as [Hlen _]. simpl in Hlen.
  change (getitem (first :: sequences) 0) with (OK first). rewrite bind_OK_l.
  rewrite Hlen, zeros_tabulate, count_sequences_tabulate, bind_OK_l by done.
  unfold range. change (Z.to_nat 0) with 0.
  replace (Z.to_nat (Z.of_nat N) - 0) with N by lia.
  rewrite <- (tabulate_length N (count_transitions ([] ++ all_transitions (first :: sequences)))) at 1.
  rewrite normalize_rows by done.
  rewrite firstn_all, drop_all, app_nil_r. simpl app.
  by rewrite normalized_tabulate.
Qed.

(** ** Rows of the probability matrix *)

Lemma of_count_nonzero (T : nat) : T ≠ 0 → ¬ (inject_Z (Z.of_nat T) == 0)%Q.
Proof. unfold Qeq, inject_Z. simpl. lia. Qed.

Lemma fdiv_counts (c T : nat) :
  T ≠ 0 →
  fdiv (of_count c) (of_count T)
  = Fin (inject_Z (Z.of_nat c) / inject_Z (Z.of_nat T))%Q.
Proof.
  intros HT. unfold fdiv, of_count.
  destruct (Qeq_bool (inject_Z (Z.of_nat T)) 0) eqn:E; [|reflexivity].
  apply Qeq_bool_iff in E. by apply of_count_nonzero in E.
Qed.

(** A row without transitions is divided by zero: every cell is NaN. *)
Lemma fdiv_zero_counts : fdiv (of_count 0) (of_count 0) = NaN.
Proof. reflexivity. Qed.

Lemma Qpow_nonneg (q : Q) (n : nat) : (0 <= q)%Q → (0 <= Qpow q n)%Q.
Proof.
  intros Hq. induction n as [|n IH]; simpl; [discriminate|].
  by apply Qmult_le_0_compat.
Qed.

Lemma Qpow_ge_1 (q : Q) (n : nat) : (1 <= q)%Q → (1 <= Qpow q n)%Q.
Proof.
  intros Hq. induction n as [|n IH]; simpl; [apply Qle_refl|]. nra.
Qed.

Lemma Qpow_le_1 (q : Q) (n : nat) : (0 <= q)%Q → (q <= 1)%Q → (Qpow q n <= 1)%Q.
Proof.
  intros H0 H1. pose proof (Qpow_nonneg q n H0) as Hn.
  induction n as [|n IH]; simpl; [apply Qle_refl|].
  pose proof (Qpow_nonneg q n H0). specialize (IH H). nra.
Qed.

Lemma Qpow_add (q : Q) (n k : nat) : (Qpow q (n + k) == Qpow q n * Qpow q k)%Q.
Proof.
  induction n as [|n IH]; simpl; [ring|]. rewrite IH. ring.
Qed.

Lemma Qpow_mono (q : Q) (n k : nat) :
  (1 <= q)%Q → n ≤ k → (Qpow q n <= Qpow q k)%Q.
Proof.
  intros Hq Hnk. replace k with (n + (k - n)) by lia. rewrite Qpow_add.
  pose proof (Qpow_ge_1 q (k - n) Hq). pose proof (Qpow_ge_1 q n Hq). nra.
Qed.

Lemma Qpow_anti (q : Q) (n k : nat) :
  (0 <= q)%Q → (q <= 1)%Q → n ≤ k → (Qpow q k <= Qpow q n)%Q.
Proof.
  intros H0 H1 Hnk. replace k with (n + (k - n)) by lia. rewrite Qpow_add.
  pose proof (Qpow_le_1 q (k - n) H0 H1). pose proof (Qpow_nonneg q n H0).
  pose proof (Qpow_nonneg q (k - n) H0). nra.
Qed.

Lemma Qsum_app (l1 l2 : list Q) : (Qsum (l1 ++ l2) == Qsum l1 + Qsum l2)%Q.
Proof.
  induction l1 as [|x l1 IH]; simpl; [ring|]. rewrite IH. ring.
Qed.

Lemma Qsum_perm (l l' : list Q) : l ≡ₚ l' → (Qsum l == Qsum l')%Q.
Proof.
  induction 1 as [|x l l' _ IH|x y l|l l' l'' _ IH1 _ IH2]; simpl.
  - reflexivity.
  - by rewrite IH.
  - ring.
  - by rewrite IH1.
Qed.

Lemma Qsum_nonneg (l : list Q) : Forall (fun x => (0 <= x)%Q) l → (0 <= Qsum l)%Q.
Proof.
  induction 1 as [|x l Hx _ IH]; simpl; [discriminate|]. lra.
Qed.

(** A floating-point sum of n values that are not negative differs from
    their sum by n roundings at most. *)
Lemma float_sum_bounds (u : Q) (fl : Q → Q) (l : list Q) (s : Q) :
  (0 <= u)%Q → (u <= 1)%Q → rounding_within u fl →
  float_sum fl l s → Forall (fun x => (0 <= x)%Q) l →
  1 ≤ length l ∧
  (Qpow (1 - u) (length l) * Qsum l <= s)%Q ∧
  (s <= Qpow (1 + u) (length l) * Qsum l)%Q.
Proof.
  intros Hu0 Hu1 Hfl Hsum.
  induction Hsum as [x|l1 s1 l2 s2 _ IH1 _ IH2|l l' s Hperm _ IH]; intros Hpos.
  - apply Forall_inv in Hpos. split; [simpl; lia|]. simpl. split; nra.
  - apply Forall_app in Hpos as [Hpos1 Hpos2].
    destruct (IH1 Hpos1) as (Hn1 & Hlo1 & Hhi1).
    destruct (IH2 Hpos2) as (Hn2 & Hlo2 & Hhi2).
    pose proof (Qsum_nonneg _ Hpos1) as HS1. pose proof (Qsum_nonneg _ Hpos2) as HS2.
    rewrite length_app. split; [lia|].
    assert (Hd0 : (0 <= 1 - u)%Q) by lra. assert (Hd1 : (1 - u <= 1)%Q) by lra.
    assert (He1 : (1 <= 1 + u)%Q) by lra.
    pose proof (Qpow_nonneg (1 - u) (length l1) Hd0) as Ha1.
    pose proof (Qpow_nonneg (1 - u) (length l2) Hd0) as Ha2.
    assert (Hs1 : (0 <= s1)%Q) by nra. assert (Hs2 : (0 <= s2)%Q) by nra.
    destruct (Hfl (s1 + s2)%Q) as [Hlo Hhi]; [lra|].
    rewrite Qsum_app.
    pose proof (Qpow_anti (1 - u) (S (length l1)) (length l1 + length l2) Hd0 Hd1 ltac:(lia)) as Hp1.
    pose proof (Qpow_anti (1 - u) (S (length l2)) (length l1 + length l2) Hd0 Hd1 ltac:(lia)) as Hp2.
    pose proof (Qpow_mono (1 + u) (S (length l1)) (length l1 + length l2) He1 ltac:(lia)) as Hq1.
    pose proof (Qpow_mono (1 + u) (S (length l2)) (length l1 + length l2) He1 ltac:(lia)) as Hq2.
    simpl in Hp1, Hp2, Hq1, Hq2.
    set (A := Qpow (1 - u) (length l1 + length l2)) in *.
    set (B := Qpow (1 + u) (length l1 + length l2)) in *.
    set (a1 := Qpow (1 - u) (length l1)) in *. set (a2 := Qpow (1 - u) (length l2)) in *.
    set (b1 := Qpow (1 + u) (length l1)) in *. set (b2 := Qpow (1 + u) (length l2)) in *.
    set (S1 := Qsum l1) in *. set (S2 := Qsum l2) in *.
    split.
    + apply Qle_trans with ((1 - u) * (s1 + s2))%Q; [|exact Hlo].
      apply Qle_trans with ((1 - u) * (a1 * S1 + a2 * S2))%Q; [|nra].
      assert (A * S1 <= (1 - u) * a1 * S1)%Q by (apply Qmult_le_compat_r; [exact Hp1 | exact HS1]).
      assert (A * S2 <= (1 - u) * a2 * S2)%Q by (apply Qmult_le_compat_r; [exact Hp2 | exact HS2]).
      lra.
    + apply Qle_trans with ((1 + u) * (s1 + s2))%Q; [exact Hhi|].
      apply Qle_trans with ((1 + u) * (b1 * S1 + b2 * S2))%Q; [nra|].
      assert ((1 + u) * b1 * S1 <= B * S1)%Q by (apply Qmult_le_compat_r; [exact Hq1 | exact HS1]).
      assert ((1 + u) * b2 * S2 <= B * S2)%Q by (apply Qmult_le_compat_r; [exact Hq2 | exact HS2]).
      lra.
  - assert (Hpos' : Forall (fun x => (0 <= x)%Q) l) by (by rewrite Hperm).
    destruct (IH Hpos') as (Hn & Hlo & Hhi).
    rewrite <- (Permutation_length Hperm), <- (Qsum_perm _ _ Hperm). done.
Qed.

(** Rounding each of the values moves their sum by one rounding at most. *)
Lemma Qsum_rounded (u : Q) (fl : Q → Q) (l : list Q) :
  rounding_within u fl → Forall (fun x => (0 <= x)%Q) l →
  ((1 - u) * Qsum l <= Qsum (fl <$> l))%Q ∧ (Qsum (fl <$> l) <= (1 + u) * Qsum l)%Q.
Proof.
  intros Hfl. induction 1 as [|x l Hx _ [IHlo IHhi]].
  - simpl. split; lra.
  - rewrite fmap_cons. cbn [Qsum]. destruct (Hfl x Hx) as [Hlo Hhi]. split; nra.
Qed.

Lemma rounded_nonneg (u : Q) (fl : Q → Q) (l : list Q) :
  (u <= 1)%Q → rounding_within u fl → Forall (fun x => (0 <= x)%Q) l →
  Forall (fun x => (0 <= x)%Q) (fl <$> l).
Proof.
  intros Hu Hfl H. apply Forall_fmap. eapply Forall_impl; [exact H|].
  intros x Hx. cbv beta. destruct (Hfl x Hx) as [Hlo _].
  apply Qle_trans with ((1 - u) * x)%Q; [|exact Hlo].
  apply Qmult_le_0_compat; [lra | exact Hx].
Qed.

Lemma Qmult_le_compat_l (x y z : Q) : (0 <= z)%Q → (x <= y)%Q → (z * x <= z * y)%Q.
Proof. intros Hz Hxy. rewrite !(Qmult_comm z). by apply Qmult_le_compat_r. Qed.

(** The values of a row that sum to 1, once rounded and summed in
    floating point, sum to 1 up to one rounding more than there are values. *)
Lemma float_sum_of_unit_row (u : Q) (fl : Q → Q) (qs : list Q) (s : Q) :
  (0 <= u)%Q → (u <= 1)%Q → rounding_within u fl →
  Forall (fun x => (0 <= x)%Q) qs → (Qsum qs == 1)%Q →
  float_sum fl (fl <$> qs) s →
  (Qpow (1 - u) (S (length qs)) <= s)%Q ∧ (s <= Qpow (1 + u) (S (length qs)))%Q.
Proof.
  intros Hu0 Hu1 Hfl Hpos Hone Hsum.
  destruct (float_sum_bounds u fl _ s Hu0 Hu1 Hfl Hsum (rounded_nonneg u fl qs Hu1 Hfl Hpos))
    as (_ & Hlo & Hhi).
  rewrite length_fmap in Hlo, Hhi.
  destruct (Qsum_rounded u fl qs Hfl Hpos) as [Hrlo Hrhi]. rewrite Hone in Hrlo, Hrhi.
  pose proof (Qpow_nonneg (1 - u) (length qs) ltac:(lra)) as Ha.
  pose proof (Qpow_nonneg (1 + u) (length qs) ltac:(lra)) as Hb.
  simpl. set (A := Qpow (1 - u) (length qs)) in *. set (B := Qpow (1 + u) (length qs)) in *.
  set (R := Qsum (fl <$> qs)) in *. split.
  - apply Qle_trans with (A * R)%Q; [|exact Hlo].
    apply Qle_trans with (A * ((1 - u) * 1))%Q; [lra|].
    apply Qmult_le_compat_l; [exact Ha | exact Hrlo].
  - apply Qle_trans with (B * R)%Q; [exact Hhi|].
    apply Qle_trans with (B * ((1 + u) * 1))%Q; [|lra].
    apply Qmult_le_compat_l; [exact Hb | exact Hrhi].
Qed.

(** Summing from left to right, as a loop does, is one way of summing. *)
Lemma float_sum_left_to_right (fl : Q → Q) (l : list Q) (x : Q) :
  float_sum fl (x :: l) (fold_left (fun acc y => fl (acc + y)%Q) l x).
Proof.
  revert x. induction l as [|y l IH] using rev_ind; intros x; [constructor|].
  rewrite fold_left_app. simpl.
  change (x :: l ++ [y]) with ((x :: l) ++ [y]).
  apply float_sum_add; [apply IH | constructor].
Qed.

(** In exact arithmetic nothing is lost. *)
Lemma exact_rounding_within : rounding_within 0 id.
Proof. intros z Hz. unfold id. split; lra. Qed.

Lemma Qsum_counts (g : nat → nat) (d : Q) (l : list nat) :
  ¬ (d == 0)%Q →
  (Qsum ((fun b => inject_Z (Z.of_nat (g b)) / d)%Q <$> l)
   == inject_Z (Z.of_nat (sum_list (g <$> l))) / d)%Q.
Proof.
  intros Hd. induction l as [|b l IH].
  - simpl. field. exact Hd.
  - rewrite !fmap_cons. cbn [Qsum sum_list sum_list_with]. unfold id.
    rewrite IH, Nat2Z.inj_add, inject_Z_plus. unfold sum_list, id. field. exact Hd.
Qed.

(** A row of the specified matrix whose total count is not zero holds
    the quotients of its counts by that total: none is negative and their
    exact sum is 1. *)
Lemma probability_row_quotients N ts a :
  row_total N ts a ≠ 0 →
  ∃ qs,
    (fun b => fdiv (of_count (count_transitions ts a b))
                   (of_count (row_total N ts a))) <$> seq 0 N = Fin <$> qs ∧
    length qs = N ∧
    Forall (fun q => (0 <= q)%Q) qs ∧
    (Qsum qs == 1)%Q.
Proof.
  intros HT. set (T := row_total N ts a) in *.
  set (d := inject_Z (Z.of_nat T)).
  assert (Hd : ¬ (d == 0)%Q) by (by apply of_count_nonzero).
  exists ((fun b => inject_Z (Z.of_nat (count_transitions ts a b)) / d)%Q <$> seq 0 N).
  split; [|split; [|split]].
  - rewrite <- list_fmap_compose. apply list_fmap_ext. intros _ b _. simpl.
    by apply fdiv_counts.
  - by rewrite length_fmap, length_seq.
  - apply Forall_fmap, Forall_forall. intros b _. simpl.
    apply Qle_shift_div_l.
    + assert (Hpos : (0 < Z.of_nat T)%Z) by lia.
      rewrite Zlt_Qlt in Hpos. exact Hpos.
    + rewrite Qmult_0_l. change 0%Q with (inject_Z 0). rewrite <- Zle_Qle. lia.
  - rewrite Qsum_counts by exact Hd.
    fold (row_total N ts a). fold T. fold d. field. exact Hd.
Qed.

(** Such a row sums to 1 within the tolerance of floating-point
    arithmetic: whatever the rounding, of relative error [u] at most, of
    each quotient and of each addition, and whatever the order of the
    additions, the sum computed lies within N + 1 roundings of 1. *)
Lemma probability_row_sums_to_one N ts a :
  row_total N ts a ≠ 0 →
  ∃ qs,
    (fun b => fdiv (of_count (count_transitions ts a b))
                   (of_count (row_total N ts a))) <$> seq 0 N = Fin <$> qs ∧
    length qs = N ∧
    ∀ (u : Q) (fl : Q → Q) (s : Q),
      (0 <= u)%Q → (u <= 1)%Q → rounding_within u fl →
      float_sum fl (fl <$> qs) s →
      (Qpow (1 - u) (S N) <= s)%Q ∧ (s <= Qpow (1 + u) (S N))%Q.
Proof.
  intros HT. destruct (probability_row_quotients N ts a HT) as (qs & Hrow & Hlen & Hpos & Hone).
  exists qs. split; [exact Hrow|]. split; [exact Hlen|].
  intros u fl s Hu0 Hu1 Hfl Hsum. rewrite <- Hlen.
  by apply (float_sum_of_unit_row u fl qs s).
Qed.



(** ** The minimum searches *)

Lemma filter_filter_implied {A : Type} (f g : A → bool) (l : list A) :
  (∀ x, g x = true → f x = true) →
  List.filter g (List.filter f l) = List.filter g l.
Proof.
  intros H. induction l as [|x l IH]; simpl; [reflexivity|].
  destruct (f x) eqn:Ef; simpl.
  - by rewrite IH.
  - destruct (g x) eqn:Eg; [|exact IH]. apply H in Eg. congruence.
Qed.

Lemma Qeq_bool_refl (x : Q) : Qeq_bool x x = true.
Proof. apply Qeq_bool_iff. reflexivity. Qed.

(** Folding [first_minimum] from a first cell [c0]: the cell kept holds
    the minimum computed by [np.min] and is the first one that does. *)
Lemma first_minimum_from {K : Type} (c0 : K * Q) (l : list (K * Q)) :
  ∃ b,
    fold_left
      (fun best cx =>
         match best with
         | None => Some cx
         | Some bx => if Qle_bool bx.2 cx.2 then best else Some cx
         end) l (Some c0) = Some b ∧
    b.2 = fold_left Qmin_b (snd <$> l) c0.2 ∧
    head (List.filter (fun cx => Qeq_bool cx.2 b.2) (c0 :: l)) = Some b.
Proof.
  induction l as [|c l IH] using rev_ind.
  - exists c0. simpl. rewrite Qeq_bool_refl. done.
  - destruct IH as (b & Hb & Hmin & Hhead).
    rewrite fold_left_app, Hb, fmap_app, fold_left_app, <- Hmin.
    change (c0 :: l ++ [c]) with ((c0 :: l) ++ [c]).
    cbn [fold_left fmap list_fmap]. unfold Qmin_b.
    destruct (Qle_bool b.2 c.2) eqn:E.
    + exists b. repeat split; try done.
      rewrite List.filter_app.
      destruct (List.filter _ (c0 :: l)); [discriminate | exact Hhead].
    + exists c. repeat split; try done.
      rewrite List.filter_app.
      destruct (List.filter (fun cx => Qeq_bool cx.2 c.2) (c0 :: l)) as [|y ys] eqn:Ey.
      * simpl. by rewrite Qeq_bool_refl.
      * exfalso. assert (Hy : y ∈ List.filter (fun cx => Qeq_bool cx.2 c.2) (c0 :: l)).
        { rewrite Ey. by left. }
        apply elem_of_filter_b in Hy as [Hy Hyc]. apply Qeq_bool_iff in Hyc.
        assert (Hle : (b.2 <= y.2)%Q).
        { rewrite Hmin. destruct (fold_Qmin_b_le (snd <$> l) c0.2) as [H1 H2].
          apply elem_of_cons in Hy as [-> | Hy]; [exact H1|].
          apply H2. by apply list_elem_of_fmap_2. }
        rewrite Hyc in Hle. apply Qle_bool_iff in Hle. congruence.
Qed.

(** [first_minimum] is the cell found by taking the minimum and then the
    first cell that holds it, as the code does. *)
Lemma first_minimum_head {K : Type} (l : list (K * Q)) (v : Q) :
  np_min (snd <$> l) = OK v →
  fst <$> first_minimum l = head (fst <$> List.filter (fun cx => Qeq_bool cx.2 v) l).
Proof.
  destruct l as [|c0 l]; [discriminate|].
  rewrite fmap_cons. cbn [np_min]. intros [= <-].
  destruct (first_minimum_from c0 l) as (b & Hb & Hmin & Hhead).
  unfold first_minimum. cbn [fold_left]. rewrite Hb, <- Hmin.
  destruct (List.filter _ (c0 :: l)) as [|y ys]; [discriminate|].
  injection Hhead as ->. reflexivity.
Qed.

Lemma head_getitem {A : Type} (l : list A) (x : A) :
  getitem l 0 = OK x → head l = Some x.
Proof. destruct l; [discriminate|]. by intros [= ->]. Qed.

Lemma nonzero_cells_off_diagonal (m : matrix) :
  diag_zero m → offdiag_nonzero m →
  List.filter (fun cx => is_nonzero cx.2) (enumerate m) = off_diagonal m.
Proof.
  intros Hd Hnz. unfold off_diagonal. apply filter_ext_in.
  intros [[r c] x] Hin%list_elem_of_In. simpl.
  apply elem_of_enumerate, cell_Some in Hin.
  destruct (Nat.eqb_spec r c) as [->|Hne]; simpl.
  - by rewrite (Hd c x Hin).
  - by apply (Hnz r c).
Qed.

Lemma nonzero_cells_off_diagonal_row (m : matrix) (r : nat) (row : list Q) :
  diag_zero m → offdiag_nonzero m → m !! r = Some row →
  List.filter (fun jx => is_nonzero jx.2) (enumerate_row row) = off_diagonal_row r row.
Proof.
  intros Hd Hnz Hrow. unfold off_diagonal_row. apply filter_ext_in.
  intros [c x] Hin%list_elem_of_In. simpl.
  apply elem_of_enumerate_row in Hin.
  assert (Hc : cell m r c = Some x) by (apply cell_Some; eauto).
  destruct (Nat.eqb_spec c r) as [->|Hne]; simpl.
  - by rewrite (Hd r x Hc).
  - apply (Hnz r c); [congruence | exact Hc].
Qed.

Section SearchesOnNonzeroCells.
Variable py_random : nat → Q.

(** On a matrix whose diagonal is zero and whose other cells are all
    nonzero, the seed step selects the cell the specification asks for. *)
Lemma seed_selects_spec_choice m p s m' p' :
  diag_zero m → offdiag_nonzero m →
  seed py_random m p = OK (s, m', p') →
  ∃ r c, s = [r; c] ∧ seed_choice_spec m = Some (r, c).
Proof.
  intros Hd Hnz H. unfold seed in H.
  apply bind_OK in H as (v & Hmin & H). apply bind_OK in H as ([r c] & Hfirst & H).
  apply bind_OK in H as (m1 & _ & H). injection H as <- _ _.
  exists r, c. split; [reflexivity|].
  pose proof (np_min_elem _ _ Hmin) as Hv. apply elem_of_nonzero_values in Hv as [Hv _].
  unfold nonzero_values in Hmin. rewrite nonzero_cells_off_diagonal in Hmin by done.
  unfold seed_choice_spec. rewrite (first_minimum_head _ v Hmin).
  rewrite <- (nonzero_cells_off_diagonal m) by done.
  rewrite filter_filter_implied.
  - apply head_getitem. exact Hfirst.
  - intros cx Hcx. by eapply is_nonzero_Qeq.
Qed.

(** Likewise an iteration of the loop selects, in the row of the previous
    element, the column the specification asks for. *)
Lemma extend_selects_spec_choice i s m p s' m' p' :
  diag_zero m → offdiag_nonzero m →
  extend py_random i (s, m, p) = OK (s', m', p') →
  ∃ prev row c, s !! (i - 1) = Some prev ∧ m !! prev = Some row ∧
                s' = s ++ [c] ∧ row_choice_spec prev row = Some c.
Proof.
  intros Hd Hnz H. unfold extend in H.
  apply bind_OK in H as (prev & Hprev%getitem_OK & H).
  apply bind_OK in H as (row & Hrow%getitem_OK & H).
  apply bind_OK in H as (v & Hmin & H). apply bind_OK in H as (c & Hfirst & H).
  apply bind_OK in H as (prev' & _ & H). apply bind_OK in H as (m1 & _ & H).
  injection H as <- _ _.
  exists prev, row, c. repeat split; try done.
  pose proof (np_min_elem _ _ Hmin) as Hv.
  apply elem_of_nonzero_row_values in Hv as [Hv _].
  unfold nonzero_row_values in Hmin.
  rewrite (nonzero_cells_off_diagonal_row m prev) in Hmin by done.
  unfold row_choice_spec. rewrite (first_minimum_head _ v Hmin).
  rewrite <- (nonzero_cells_off_diagonal_row m prev) by done.
  rewrite filter_filter_implied.
  - apply head_getitem. exact Hfirst.
  - intros cx Hcx. by eapply is_nonzero_Qeq.
Qed.
End SearchesOnNonzeroCells.

Section SearchesOfTheCode.
Variable py_random : nat → Q.

(** What the seed search does on any matrix: the cell selected holds the
    least value among the nonzero cells. *)
Lemma seed_selects_least_nonzero m p s m' p' :
  seed py_random m p = OK (s, m', p') →
  ∃ r c x, s = [r; c] ∧ cell m r c = Some x ∧ is_nonzero x = true ∧
    ∀ r' c' y, cell m r' c' = Some y → is_nonzero y = true → (x <= y)%Q.
Proof.
  intros H. unfold seed in H.
  apply bind_OK in H as (v & Hmin & H). apply bind_OK in H as ([r c] & Hfirst & H).
  apply bind_OK in H as (m1 & _ & H). injection H as <- _ _.
  apply getitem_OK, list_elem_of_lookup_2, elem_of_argwhere in Hfirst as (x & Hx & Hxv).
  pose proof (np_min_elem _ _ Hmin) as Hv. apply elem_of_nonzero_values in Hv as [Hv _].
  exists r, c, x. repeat split; try done; [by eapply is_nonzero_Qeq|].
  intros r' c' y Hy Hnz. apply Qeq_bool_iff in Hxv. rewrite Hxv.
  apply (np_min_le _ _ _ Hmin). apply elem_of_nonzero_values. eauto.
Qed.

(** Likewise in the row of the previous element. *)
Lemma extend_selects_least_nonzero i s m p s' m' p' :
  extend py_random i (s, m, p) = OK (s', m', p') →
  ∃ prev c x, s !! (i - 1) = Some prev ∧ s' = s ++ [c] ∧
    cell m prev c = Some x ∧ is_nonzero x = true ∧
    ∀ c' y, cell m prev c' = Some y → is_nonzero y = true → (x <= y)%Q.
Proof.
  intros H. unfold extend in H.
  apply bind_OK in H as (prev & Hprev%getitem_OK & H).
  apply bind_OK in H as (row & Hrow%getitem_OK & H).
  apply bind_OK in H as (v & Hmin & H). apply bind_OK in H as (c & Hfirst & H).
  apply bind_OK in H as (prev' & _ & H). apply bind_OK in H as (m1 & _ & H).
  injection H as <- _ _.
  apply getitem_OK, list_elem_of_lookup_2, elem_of_argwhere_row in Hfirst as (x & Hx & Hxv).
  pose proof (np_min_elem _ _ Hmin) as Hv.
  apply elem_of_nonzero_row_values in Hv as [Hv _].
  exists prev, c, x. repeat split; try done.
  - apply cell_Some. eauto.
  - by eapply is_nonzero_Qeq.
  - intros c' y Hy Hnz. apply Qeq_bool_iff in Hxv. rewrite Hxv.
    apply (np_min_le _ _ _ Hmin). apply elem_of_nonzero_row_values.
    split; [exact Hnz|]. apply cell_Some in Hy as (row' & Hrow' & Hy).
    rewrite Hrow in Hrow'. injection Hrow' as <-. eauto.
Qed.
End SearchesOfTheCode.

(** C3. The searches of the code take their candidates among the nonzero
    cells, not among the off-diagonal cells. The initializer returns
    [m_zero_cell] when the draw for cell (0, 1) is 0. There the
    specification selects the off-diagonal cell (0, 1), which holds the
    least off-diagonal value, while the seed step selects (2, 0); and in
    row 0 the specification selects column 1, while the loop selects
    column 2. *)
Theorem minimum_search_skips_zero_cells :
  initialize_markov_chain np_zero_draw 3 0 = OK (m_zero_cell, 9) ∧
  seed_choice_spec m_zero_cell = Some (0, 1) ∧
  seed py_example m_zero_cell 0
    = OK ([2; 0], [[0; 0; 5#10]; [3#10; 0; 4#10]; [3#2; 6#10; 0]]%Q, 1) ∧
  row_choice_spec 0 [0; 0; 5#10]%Q = Some 1 ∧
  extend py_example 2 ([2; 0], [[0; 0; 5#10]; [3#10; 0; 4#10]; [3#2; 6#10; 0]]%Q, 1)
    = OK ([2; 0; 2], [[0; 0; 5#4]; [3#10; 0; 4#10]; [3#2; 6#10; 0]]%Q, 2).
Proof. repeat split; vm_compute; reflexivity. Qed.

(** ** The generator returns *)

Lemma positive_is_nonzero (x : Q) : (0 < x)%Q → is_nonzero x = true.
Proof.
  intros H. unfold is_nonzero. destruct (Qeq_bool x 0) eqn:E; [|reflexivity].
  apply Qeq_bool_iff in E. rewrite E in H. by apply Qlt_irrefl in H.
Qed.

Lemma offdiag_positive_nonzero (m : matrix) : offdiag_positive m → offdiag_nonzero m.
Proof. intros H r c x Hne Hc. apply positive_is_nonzero. by apply (H r c). Qed.

(** On a well-formed matrix the seed search is the search of the
    specification. *)
Lemma well_formed_seed_selects_spec_choice py_random n m p s m' p' :
  well_formed n m →
  seed py_random m p = OK (s, m', p') →
  ∃ r c, s = [r; c] ∧ seed_choice_spec m = Some (r, c).
Proof.
  intros (_ & Hd & Hpos). apply seed_selects_spec_choice; [exact Hd|].
  by apply offdiag_positive_nonzero.
Qed.

Lemma well_formed_extend_selects_spec_choice py_random n i s m p s' m' p' :
  well_formed n m →
  extend py_random i (s, m, p) = OK (s', m', p') →
  ∃ prev row c, s !! (i - 1) = Some prev ∧ m !! prev = Some row ∧
                s' = s ++ [c] ∧ row_choice_spec prev row = Some c.
Proof.
  intros (_ & Hd & Hpos). apply extend_selects_spec_choice; [exact Hd|].
  by apply offdiag_positive_nonzero.
Qed.

Lemma ceil_positive (v x : Q) : (0 < v)%Q → (0 <= x)%Q → (0 < ceil v + x)%Q.
Proof.
  intros Hv Hx. unfold ceil.
  assert (H : (0 < inject_Z (Qceiling v))%Q).
  { eapply Qlt_le_trans; [exact Hv | apply Qle_ceiling]. }
  rewrite <- (Qplus_0_r 0). by apply Qplus_lt_le_compat.
Qed.

Lemma reinforced_well_formed n m r c x m' :
  (0 <= x)%Q → well_formed n m → reinforced m r c x m' → well_formed n m'.
Proof.
  intros Hx (Hsq & Hd & Hpos) Hre. split; [|split].
  - unfold square. by rewrite (reinforced_shape _ _ _ _ _ Hre).
  - by eapply reinforced_diag_zero.
  - intros r' c' y Hne Hy.
    destruct (decide ((r', c') = (r, c))) as [[= -> ->]|Hother].
    + destruct (reinforced_cell_eq _ _ _ _ _ Hre) as (v & Hv & Hv').
      rewrite Hv' in Hy. injection Hy as <-.
      apply ceil_positive; [|exact Hx]. by apply (Hpos r c).
    + rewrite (reinforced_cell_ne _ _ _ _ _ _ _ Hre Hother) in Hy. by apply (Hpos r' c').
Qed.

Lemma initialize_markov_chain_well_formed np_random N q m q' :
  (∀ k, (0 < np_random k)%Q) →
  initialize_markov_chain np_random N q = OK (m, q') →
  well_formed (Z.to_nat N) m.
Proof.
  intros Hnp H. split; [|split].
  - by eapply initialize_markov_chain_square.
  - by eapply initialize_markov_chain_diag_zero.
  - apply initialize_markov_chain_OK in H as (_ & -> & _).
    intros r c x Hne Hx. rewrite fill_diagonal_off in Hx by done.
    apply rand_cell in Hx as (_ & _ & ->). apply Hnp.
Qed.

Section Returns.
Variable py_random : nat → Q.
Hypothesis py_nonneg : ∀ k, (0 <= py_random k)%Q.

Lemma walk_well_formed n m p s m' p' :
  well_formed n m → walk py_random m p s m' p' → well_formed n m'.
Proof.
  intros Hwf. induction 1 as [r c m' Hre|s m1 p1 prev c m2 Hw IH Hlast Hre];
    (eapply reinforced_well_formed; [apply py_nonneg | | exact Hre]); done.
Qed.

(** The seed step raises only when no cell is nonzero. *)
Lemma seed_is_OK (m : matrix) p :
  nonzero_values m ≠ [] → ∃ st, seed py_random m p = OK st.
Proof.
  intros Hne. destruct (np_min_is_OK _ Hne) as [v Hmin].
  pose proof (np_min_elem _ _ Hmin) as Hv.
  apply elem_of_nonzero_values in Hv as (Hnz & r & c & Hc).
  assert (Hin : (r, c) ∈ argwhere m v).
  { apply elem_of_argwhere. exists v. split; [exact Hc | apply Qeq_bool_refl]. }
  destruct (argwhere m v) as [|[r0 c0] l] eqn:Harg; [inversion Hin|].
  assert (Hin0 : (r0, c0) ∈ argwhere m v) by (rewrite Harg; by left).
  apply elem_of_argwhere in Hin0 as (y & Hy & _).
  apply cell_Some in Hy as (row & Hr & Hy).
  unfold seed. rewrite Hmin, bind_OK_l, Harg.
  change (getitem ((r0, c0) :: l) 0) with (OK (r0, c0)). rewrite bind_OK_l.
  unfold reinforce. cbn [fst snd].
  rewrite (proj2 (getitem_OK _ _ _) Hr), bind_OK_l.
  rewrite (proj2 (getitem_OK _ _ _) Hy), bind_OK_l, bind_OK_l. eauto.
Qed.

(** An iteration raises only when the element read is missing, is not a
    row of the matrix, or names a row without a nonzero cell. *)
Lemma extend_is_OK i s (m : matrix) p prev row :
  s !! (i - 1) = Some prev → m !! prev = Some row → nonzero_row_values row ≠ [] →
  ∃ st, extend py_random i (s, m, p) = OK st.
Proof.
  intros Hprev Hrow Hne. destruct (np_min_is_OK _ Hne) as [v Hmin].
  pose proof (np_min_elem _ _ Hmin) as Hv.
  apply elem_of_nonzero_row_values in Hv as (Hnz & c & Hc).
  assert (Hin : c ∈ argwhere_row row v).
  { apply elem_of_argwhere_row. exists v. split; [exact Hc | apply Qeq_bool_refl]. }
  destruct (argwhere_row row v) as [|c0 l] eqn:Harg; [inversion Hin|].
  assert (Hin0 : c0 ∈ argwhere_row row v) by (rewrite Harg; by left).
  apply elem_of_argwhere_row in Hin0 as (y & Hy & _).
  unfold extend.
  rewrite (proj2 (getitem_OK _ _ _) Hprev), bind_OK_l.
  rewrite (proj2 (getitem_OK _ _ _) Hrow), bind_OK_l.
  rewrite Hmin, bind_OK_l, Harg.
  change (getitem (c0 :: l) 0) with (OK c0). rewrite bind_OK_l.
  rewrite (proj2 (getitem_OK _ _ _) (lookup_app_l_Some _ [c0] _ _ Hprev)), bind_OK_l.
  unfold reinforce.
  rewrite (proj2 (getitem_OK _ _ _) Hrow), bind_OK_l.
  rewrite (proj2 (getitem_OK _ _ _) Hy), bind_OK_l, bind_OK_l. eauto.
Qed.

(** In a well-formed matrix of dimension at least 2 every row has a
    nonzero cell. *)
Lemma well_formed_row_nonzero n (m : matrix) r :
  2 ≤ n → well_formed n m → r < n →
  ∃ row, m !! r = Some row ∧ nonzero_row_values row ≠ [].
Proof.
  intros Hn (Hsq & _ & Hpos) Hr.
  set (c := if decide (r = 0) then 1 else 0).
  assert (Hc : c < n ∧ r ≠ c) by (unfold c; case_decide; lia).
  destruct (square_cell_is_Some n m r c Hsq Hr (proj1 Hc)) as [x Hx].
  pose proof (Hpos r c x (proj2 Hc) Hx) as Hx0.
  apply cell_Some in Hx as (row & Hrow & Hx). exists row. split; [exact Hrow|].
  intros Hnil.
  assert (Hin : x ∈ nonzero_row_values row).
  { apply elem_of_nonzero_row_values. split; [by apply positive_is_nonzero | eauto]. }
  rewrite Hnil in Hin. inversion Hin.
Qed.

Lemma well_formed_nonzero n (m : matrix) :
  2 ≤ n → well_formed n m → nonzero_values m ≠ [].
Proof.
  intros Hn Hwf Hnil.
  destruct (well_formed_row_nonzero n m 0 Hn Hwf) as (row & Hrow & Hne); [lia|].
  destruct (nonzero_row_values row) as [|x l] eqn:E; [done|].
  assert (Hx : x ∈ nonzero_row_values row) by (rewrite E; by left).
  apply elem_of_nonzero_row_values in Hx as (Hnz & c & Hc).
  assert (Hin : x ∈ nonzero_values m).
  { apply elem_of_nonzero_values. split; [exact Hnz|].
    exists 0, c. apply cell_Some. eauto. }
  rewrite Hnil in Hin. inversion Hin.
Qed.

Lemma loop_returns n k : ∀ a s m p,
  2 ≤ n → well_formed n m → length s = a → 1 ≤ a → in_alphabet n s →
  ∃ st, for_each (seq a k) (extend py_random) (s, m, p) = OK st.
Proof.
  induction k as [|k IH]; intros a s m p Hn Hwf Hlen Ha Hin; [simpl; eauto|].
  destruct (lookup_lt_is_Some_2 s (a - 1)) as [prev Hprev]; [lia|].
  assert (Hlt : prev < n) by exact (Forall_lookup_1 (fun a => a < n) s _ _ Hin Hprev).
  destruct (well_formed_row_nonzero n m prev Hn Hwf Hlt) as (row & Hrow & Hne).
  destruct (extend_is_OK a s m p prev row Hprev Hrow Hne) as [[[s' m'] p'] Hstep].
  cbn [seq]. rewrite for_each_cons, Hstep, bind_OK_l.
  apply extend_OK in Hstep as (prev' & c & _ & -> & Hre & ->).
  apply (IH (S a)); try done.
  - by eapply reinforced_well_formed.
  - rewrite length_app. simpl. lia.
  - lia.
  - apply Forall_app. split; [exact Hin|]. repeat constructor.
    destruct Hwf as [Hsq _]. by destruct (reinforced_square_lt _ _ _ _ _ _ Hsq Hre).
Qed.

(** On a well-formed matrix of dimension N >= 2 the builder returns, and
    leaves the matrix well formed. *)
Lemma generate_sequence_returns N (m : matrix) p :
  (2 <= N)%Z → well_formed (Z.to_nat N) m →
  ∃ s m' p', generate_sequence py_random N m p = OK (s, m', p') ∧
             well_formed (Z.to_nat N) m'.
Proof.
  intros HN Hwf. assert (Hn : 2 ≤ Z.to_nat N) by lia.
  destruct (seed_is_OK m p (well_formed_nonzero _ _ Hn Hwf)) as [[[s1 m1] p1] Hseed].
  pose proof Hseed as Hseed'.
  apply seed_OK in Hseed' as (r & c & -> & Hre & ->).
  pose proof (reinforced_well_formed _ _ _ _ _ _ (py_nonneg p) Hwf Hre) as Hwf1.
  destruct (reinforced_square_lt _ _ _ _ _ _ (proj1 Hwf) Hre).
  destruct (loop_returns (Z.to_nat N) (Z.to_nat N - 2) 2 [r; c] m1 (S p))
    as [[[s m'] p'] Hloop]; try done; [lia | by repeat constructor |].
  exists s, m', p'.
  assert (Hgen : generate_sequence py_random N m p = OK (s, m', p')).
  { unfold generate_sequence, build, range. rewrite Hseed, bind_OK_l. exact Hloop. }
  split; [exact Hgen|].
  apply generate_sequence_walk in Hgen as [Hw _].
  eapply walk_well_formed; [exact Hwf | exact Hw].
Qed.
End Returns.

Lemma generate_sequences_body_OK py_random N i seqs m p s m' p' :
  generate_sequence py_random N m p = OK (s, m', p') →
  generate_sequences_body py_random N i (seqs, m, p) = OK (seqs ++ [s], m', p').
Proof. intros H. unfold generate_sequences_body. by rewrite H. Qed.

Lemma generate_sequences_loop_returns py_random N (idx : list nat) :
  (∀ k, (0 <= py_random k)%Q) → (2 <= N)%Z →
  ∀ seqs (m : matrix) p, well_formed (Z.to_nat N) m →
  ∃ st, for_each idx (generate_sequences_body py_random N) (seqs, m, p) = OK st.
Proof.
  intros Hpy HN. induction idx as [|i idx IH]; intros seqs m p Hwf; [simpl; eauto|].
  destruct (generate_sequence_returns py_random Hpy N m p HN Hwf)
    as (s & m' & p' & Hgen & Hwf').
  rewrite for_each_cons, (generate_sequences_body_OK _ _ _ _ _ _ _ _ _ Hgen), bind_OK_l.
  by apply IH.
Qed.

(** With positive draws for the matrix and non-negative draws for the
    reinforcements, generation with N >= 2 returns a sequence set. *)
Lemma generate_sequences_returns np_random py_random N M q m0 q' p :
  (∀ k, (0 < np_random k)%Q) → (∀ k, (0 <= py_random k)%Q) → (2 <= N)%Z →
  initialize_markov_chain np_random N q = OK (m0, q') →
  ∃ seqs m' p', generate_sequences py_random N M m0 p = OK (seqs, m', p').
Proof.
  intros Hnp Hpy HN Hinit.
  apply (initialize_markov_chain_well_formed _ _ _ _ _ Hnp) in Hinit.
  destruct (generate_sequences_loop_returns py_random N (range 0 M) Hpy HN [] m0 p Hinit)
    as [[[seqs m'] p'] H].
  by exists seqs, m', p'.
Qed.

(** ** Greedy steps *)

Section GreedySteps.
Variable py_random : nat → Q.

(** The seed step reinforces a cell that is least in its row (indeed in
    the whole matrix). *)
Lemma seed_greedy m p s m' p' :
  seed py_random m p = OK (s, m', p') →
  ∃ r c, s = [r; c] ∧ least_in_row m r c ∧
         reinforced m r c (py_random p) m' ∧ p' = S p.
Proof.
  intros H. destruct (seed_OK _ _ _ _ _ _ H) as (r & c & -> & Hre & ->).
  apply seed_selects_least_nonzero in H as (r' & c' & x & [= <- <-] & Hx & Hnz & Hle).
  exists r, c. repeat split; try done. exists x. repeat split; try done.
  intros c' y. apply Hle.
Qed.

(** An iteration reinforces a cell that is least in the row of the
    element it reads. *)
Lemma extend_greedy i s m p s' m' p' :
  extend py_random i (s, m, p) = OK (s', m', p') →
  ∃ prev c, s !! (i - 1) = Some prev ∧ s' = s ++ [c] ∧ least_in_row m prev c ∧
            reinforced m prev c (py_random p) m' ∧ p' = S p.
Proof.
  intros H. destruct (extend_OK _ _ _ _ _ _ _ _ H) as (prev & c & Hprev & -> & Hre & ->).
  apply extend_selects_least_nonzero in H
    as (prev' & c' & x & Hprev' & Hs & Hx & Hnz & Hle).
  apply app_inj_tail in Hs as [_ <-].
  rewrite Hprev in Hprev'. injection Hprev' as <-.
  exists prev, c. repeat split; try done. exists x. done.
Qed.

(** A property of the matrix and of the transitions made so far that every
    greedy reinforcement keeps. *)
Variable I : matrix → list (nat * nat) → Prop.
Hypothesis I_step : ∀ m ts r c p m',
  I m ts → least_in_row m r c → reinforced m r c (py_random p) m' →
  I m' (ts ++ [(r, c)]).

Lemma loop_keeps ts0 k : ∀ a s1 m1 p1 s' m' p',
  length s1 = a → 1 ≤ a →
  I m1 (ts0 ++ transitions s1) →
  for_each (seq a k) (extend py_random) (s1, m1, p1) = OK (s', m', p') →
  I m' (ts0 ++ transitions s').
Proof.
  induction k as [|k IH]; intros a s1 m1 p1 s' m' p' Ha Hpos HI Hrun; simpl in Hrun.
  - by injection Hrun as <- <- <-.
  - apply bind_OK in Hrun as ([[s2 m2] p2] & Hstep & Hrun).
    apply extend_greedy in Hstep as (prev & c & Hprev & -> & Hleast & Hre & ->).
    assert (Hlast : last s1 = Some prev).
    { rewrite last_lookup, <- Hprev. f_equal. lia. }
    apply (IH (S a) (s1 ++ [c]) m2 (S p1) s' m' p'); try done.
    + rewrite length_app. simpl. lia.
    + lia.
    + rewrite (transitions_snoc _ _ _ Hlast), app_assoc. by eapply I_step.
Qed.

Lemma generate_sequence_keeps ts0 N m p s m' p' :
  I m ts0 →
  generate_sequence py_random N m p = OK (s, m', p') →
  I m' (ts0 ++ transitions s).
Proof.
  intros HI H. unfold generate_sequence, build, range in H.
  apply bind_OK in H as ([[s1 m1] p1] & Hseed & Hrun).
  apply seed_greedy in Hseed as (r & c & -> & Hleast & Hre & ->).
  eapply (loop_keeps ts0); [| |  |exact Hrun]; [reflexivity | lia |].
  by eapply I_step.
Qed.

Lemma all_transitions_snoc seqs s :
  all_transitions (seqs ++ [s]) = all_transitions seqs ++ transitions s.
Proof.
  unfold all_transitions. rewrite fmap_app, concat_app. simpl.
  by rewrite app_nil_r.
Qed.

Lemma generate_sequences_loop_keeps N (idx : list nat) : ∀ seqs0 m0 p0 seqs m' p',
  I m0 (all_transitions seqs0) →
  for_each idx (generate_sequences_body py_random N) (seqs0, m0, p0) = OK (seqs, m', p') →
  I m' (all_transitions seqs).
Proof.
  induction idx as [|i idx IH]; intros seqs0 m0 p0 seqs m' p' HI Hrun.
  - by injection Hrun as <- <- <-.
  - rewrite for_each_cons in Hrun.
    apply bind_OK in Hrun as ([[seqs1 m1] p1] & Hbody & Hrun).
    unfold generate_sequences_body in Hbody.
    apply bind_OK in Hbody as ([[s m1'] p1'] & Hgen & Hbody).
    injection Hbody as <- <- <-.
    assert (HI' : I m1' (all_transitions (seqs0 ++ [s]))).
    { rewrite all_transitions_snoc. by eapply generate_sequence_keeps. }
    exact (IH _ _ _ _ _ _ HI' Hrun).
Qed.

(** What every greedy reinforcement keeps holds of the matrix and of the
    transitions of the set when [generate_sequences] returns. *)
Lemma generate_sequences_keeps N M m p seqs m' p' :
  I m [] →
  generate_sequences py_random N M m p = OK (seqs, m', p') →
  I m' (all_transitions seqs).
Proof. intros HI H. by eapply generate_sequences_loop_keeps in H. Qed.
End GreedySteps.

(** ** The matrix counts the transitions *)

Lemma Qceiling_tier (k : Z) (x : Q) :
  (inject_Z k < x)%Q → (x <= inject_Z k + 1)%Q → Qceiling x = (k + 1)%Z.
Proof.
  intros Hlo Hhi.
  pose proof (Qle_ceiling x) as H1. pose proof (Qceiling_lt x) as H2.
  assert (Hk : (k < Qceiling x)%Z) by (rewrite Zlt_Qlt; lra).
  assert (Hc : (Qceiling x - 1 < k + 1)%Z).
  { rewrite Zlt_Qlt, (inject_Z_plus k 1). change (inject_Z 1) with 1%Q. lra. }
  lia.
Qed.

Lemma count_le_of_tiers (a b : nat) (x y : Q) :
  (inject_Z (Z.of_nat a) < x)%Q → (x <= y)%Q → (y <= inject_Z (Z.of_nat b) + 1)%Q →
  a ≤ b.
Proof.
  intros Ha Hxy Hb.
  assert (H : (Z.of_nat a < Z.of_nat b + 1)%Z).
  { rewrite Zlt_Qlt, (inject_Z_plus (Z.of_nat b) 1). change (inject_Z 1) with 1%Q. lra. }
  lia.
Qed.

Lemma inject_Z_of_nat_nonneg (a : nat) : (0 <= inject_Z (Z.of_nat a))%Q.
Proof. change 0%Q with (inject_Z 0). rewrite <- Zle_Qle. lia. Qed.

(** A greedy reinforcement that adds more than 0 and at most 1 to the
    ceiling moves the cell to the next tier and keeps the rows balanced. *)
Lemma usage_invariant_step n m ts r c d m' :
  (0 < d)%Q → (d <= 1)%Q →
  usage_invariant n m ts → least_in_row m r c → reinforced m r c d m' →
  usage_invariant n m' (ts ++ [(r, c)]).
Proof.
  intros Hd0 Hd1 (Hsq & Hdz & Ht & Hb) (x & Hx & Hnz & Hleast) Hre.
  pose proof (reinforced_off_diagonal _ _ _ _ _ Hdz Hre) as Hne.
  destruct (reinforced_cell_eq _ _ _ _ _ Hre) as (v & Hv & Hv').
  rewrite Hx in Hv. injection Hv as <-.
  destruct (Ht r c x Hne Hx) as [Hlo Hhi].
  assert (Hceil : ceil x = inject_Z (Z.of_nat (count_transitions ts r c) + 1)).
  { unfold ceil. by rewrite (Qceiling_tier _ _ Hlo Hhi). }
  split; [|split; [|split]].
  - unfold square. by rewrite (reinforced_shape _ _ _ _ _ Hre).
  - by eapply reinforced_diag_zero.
  - intros r' c' y Hne' Hy. rewrite count_transitions_snoc.
    destruct (decide ((r, c) = (r', c'))) as [[= <- <-]|Hother].
    + rewrite Hv' in Hy. injection Hy as <-. rewrite Hceil.
      rewrite Nat2Z.inj_add. change (Z.of_nat 1) with 1%Z.
      rewrite !inject_Z_plus. change (inject_Z 1) with 1%Q. lra.
    + rewrite (reinforced_cell_ne _ _ _ _ _ r' c' Hre) in Hy by congruence.
      rewrite Nat.add_0_r. by apply Ht.
  - intros r' c1 c2 Hc1 Hc2 Hn1 Hn2. rewrite !count_transitions_snoc.
    destruct (decide ((r, c) = (r', c2))) as [[= <- <-]|Hother2].
    { destruct (decide ((r, c) = (r, c1))) as [[= <-]|_]; [lia|].
      pose proof (Hb r c1 c Hc1 Hc2 Hn1 Hn2). lia. }
    destruct (decide ((r, c) = (r', c1))) as [[= <- <-]|Hother1];
      [|pose proof (Hb r' c1 c2 Hc1 Hc2 Hn1 Hn2); lia].
    destruct (square_cell n m r c x Hsq Hx) as [Hr _].
    destruct (square_cell_is_Some n m r c2 Hsq Hr Hc2) as [y Hy].
    destruct (Ht r c2 y Hn2 Hy) as [Hylo Hyhi].
    assert (Hynz : is_nonzero y = true).
    { apply positive_is_nonzero.
      pose proof (inject_Z_of_nat_nonneg (count_transitions ts r c2)). lra. }
    pose proof (Hleast c2 y Hy Hynz) as Hxy.
    pose proof (count_le_of_tiers _ _ _ _ Hlo Hxy Hyhi). lia.
Qed.

Lemma initialize_markov_chain_usage np_random N q m q' :
  (∀ k, (0 < np_random k)%Q ∧ (np_random k < 1)%Q) →
  initialize_markov_chain np_random N q = OK (m, q') →
  usage_invariant (Z.to_nat N) m [].
Proof.
  intros Hnp H. split; [|split; [|split]].
  - by eapply initialize_markov_chain_square.
  - by eapply initialize_markov_chain_diag_zero.
  - apply initialize_markov_chain_OK in H as (_ & -> & _).
    intros r c x Hne Hx. rewrite fill_diagonal_off in Hx by done.
    apply rand_cell in Hx as (_ & _ & ->).
    change (inject_Z (Z.of_nat (count_transitions [] r c))) with 0%Q.
    destruct (Hnp (q + r * Z.to_nat N + c)). lra.
  - intros r c1 c2 _ _ _ _. unfold count_transitions. rewrite !filter_nil. simpl. lia.
Qed.

(** The invariant holds when generation from an initialized matrix returns. *)
Lemma generate_sequences_usage np_random py_random N M q m0 q' p seqs m' p' :
  (∀ k, (0 < np_random k)%Q ∧ (np_random k < 1)%Q) →
  (∀ k, (0 < py_random k)%Q ∧ (py_random k <= 1)%Q) →
  initialize_markov_chain np_random N q = OK (m0, q') →
  generate_sequences py_random N M m0 p = OK (seqs, m', p') →
  usage_invariant (Z.to_nat N) m' (all_transitions seqs).
Proof.
  intros Hnp Hpy Hinit Hgen.
  eapply (generate_sequences_keeps py_random (usage_invariant (Z.to_nat N)));
    [| |exact Hgen].
  - intros m ts r c k m1 HI Hleast Hre. destruct (Hpy k) as [H0 H1].
    exact (usage_invariant_step _ _ _ _ _ _ _ H0 H1 HI Hleast Hre).
  - exact (initialize_markov_chain_usage _ _ _ _ _ Hnp Hinit).
Qed.

Lemma replay_open_bounds (draws : list Q) (k : nat) :
  Forall (fun x => (0 < x)%Q ∧ (x < 1)%Q) draws →
  (0 < replay draws k)%Q ∧ (replay draws k < 1)%Q.
Proof.
  intros H. unfold replay. revert k.
  induction H as [|x l Hx _ IH]; intros [|k]; simpl; auto; by vm_compute.
Qed.

Lemma np_example_open (k : nat) : (0 < np_example k)%Q ∧ (np_example k < 1)%Q.
Proof. apply replay_open_bounds. repeat constructor; by vm_compute. Qed.

Lemma py_example_open (k : nat) : (0 < py_example k)%Q ∧ (py_example k < 1)%Q.
Proof. apply replay_open_bounds. repeat constructor; by vm_compute. Qed.

Lemma py_rounded_up_bounds (k : nat) :
  (0 < py_rounded_up k)%Q ∧ (py_rounded_up k <= 1)%Q.
Proof.
  unfold py_rounded_up, replay.
  do 5 (destruct k as [|k]; [by vm_compute|]). destruct k; by vm_compute.
Qed.

(** X1. As long as every reinforcement stores more than the integer it
    adds to and at most the next integer, the matrix kept by the
    generator counts the transitions made: after [generate_sequences]
    returns, the ceiling of an off-diagonal cell [(r, c)] is one more than
    the number of times the transition from [r] to [c] occurs in the
    sequences generated. The condition bears on the values of the stream,
    the amounts added: a draw of (0, 1) meets it in exact arithmetic, and
    in [float64] unless the sum is rounded down to the integer. *)
Theorem matrix_counts_transitions
    np_random py_random N M q m0 q' p seqs m' p' r c x :
  (∀ k, (0 < np_random k)%Q ∧ (np_random k < 1)%Q) →
  (∀ k, (0 < py_random k)%Q ∧ (py_random k <= 1)%Q) →
  initialize_markov_chain np_random N q = OK (m0, q') →
  generate_sequences py_random N M m0 p = OK (seqs, m', p') →
  r ≠ c → cell m' r c = Some x →
  Qceiling x = (Z.of_nat (count_transitions (all_transitions seqs) r c) + 1)%Z.
Proof.
  intros Hnp Hpy Hinit Hgen Hne Hx.
  destruct (generate_sequences_usage _ _ _ _ _ _ _ _ _ _ _ Hnp Hpy Hinit Hgen)
    as (_ & _ & Ht & _).
  destruct (Ht r c x Hne Hx) as [Hlo Hhi]. by apply Qceiling_tier.
Qed.

(** In the run of the example whose first stored sum is rounded up to 2,
    the cell of the transition from 0 to 1, made once, holds 2. *)
Lemma matrix_counts_transitions_witness :
  Qceiling 2 = (Z.of_nat (count_transitions (all_transitions [[0; 1; 0]; [2; 0; 2]]%nat) 0%nat 1%nat) + 1)%Z.
Proof.
  eapply (matrix_counts_transitions np_example py_rounded_up 3 2 0 _ _ 0 _ _ _ 0 1 2%Q);
    [exact np_example_open | exact py_rounded_up_bounds | vm_compute; reflexivity
    | vm_compute; reflexivity | lia | reflexivity].
Defined.

(** X2. As long as every reinforcement stores more than the integer it
    adds to and at most the next integer, the generated set is balanced
    row by row: out of any symbol [r], the transitions to two other
    symbols [c1] and [c2] of the alphabet occur in the set the same number
    of times, up to one. The condition bears on the values of the stream,
    the amounts added: a draw of (0, 1) meets it in exact arithmetic, and
    in [float64] unless the sum is rounded down to the integer. *)
Theorem generated_transitions_balanced
    np_random py_random N M q m0 q' p seqs m' p' r c1 c2 :
  (∀ k, (0 < np_random k)%Q ∧ (np_random k < 1)%Q) →
  (∀ k, (0 < py_random k)%Q ∧ (py_random k <= 1)%Q) →
  initialize_markov_chain np_random N q = OK (m0, q') →
  generate_sequences py_random N M m0 p = OK (seqs, m', p') →
  (Z.of_nat c1 < N)%Z → (Z.of_nat c2 < N)%Z → r ≠ c1 → r ≠ c2 →
  count_transitions (all_transitions seqs) r c1
  ≤ count_transitions (all_transitions seqs) r c2 + 1.
Proof.
  intros Hnp Hpy Hinit Hgen Hc1 Hc2 Hn1 Hn2.
  destruct (generate_sequences_usage _ _ _ _ _ _ _ _ _ _ _ Hnp Hpy Hinit Hgen)
    as (_ & _ & _ & Hb).
  apply Hb; try done; lia.
Qed.

Lemma generated_transitions_balanced_witness :
  count_transitions (all_transitions [[0; 1; 0]; [2; 0; 2]; [2; 1; 2]]) 2 0
  ≤ count_transitions (all_transitions [[0; 1; 0]; [2; 0; 2]; [2; 1; 2]]) 2 1 + 1.
Proof.
  eapply (generated_transitions_balanced np_example py_rounded_up 3 3 0 _ _ 0 _ _ _ 2 0 1);
    [exact np_example_open | exact py_rounded_up_bounds | vm_compute; reflexivity
    | vm_compute; reflexivity | lia | lia | lia | lia].
Defined.

(** ** The only failure of the generator *)


Section Failures.
Variable py_random : nat → Q.





End Failures.



(** ** Sets generated in several runs *)

Section Composition.
Variable py_random : nat → Q.

(** The loop of [generate_sequences] ignores its index. *)
Lemma generate_sequences_loop_index N (idx : list nat) : ∀ (idx' : list nat) st,
  length idx = length idx' →
  for_each idx (generate_sequences_body py_random N) st
  = for_each idx' (generate_sequences_body py_random N) st.
Proof.
  induction idx as [|i idx IH]; intros [|i' idx'] st Hlen; try discriminate; [reflexivity|].
  injection Hlen as Hlen. rewrite !for_each_cons.
  change (generate_sequences_body py_random N i st)
    with (generate_sequences_body py_random N i' st).
  destruct (generate_sequences_body py_random N i' st) as [st'|e]; [|reflexivity].
  rewrite !bind_OK_l. by apply IH.
Qed.

(** It only appends to the sequences it starts from. *)
Lemma generate_sequences_loop_prefix N (idx : list nat) : ∀ seqs0 m p,
  for_each idx (generate_sequences_body py_random N) (seqs0, m, p)
  = for_each idx (generate_sequences_body py_random N) ([], m, p)
    ≫= (fun '(new, m', p') => OK (seqs0 ++ new, m', p')).
Proof.
  induction idx as [|i idx IH]; intros seqs0 m p.
  - simpl. by rewrite app_nil_r.
  - rewrite !for_each_cons.
    destruct (generate_sequence py_random N m p) as [[[s m1] p1]|e] eqn:Hgen.
    + rewrite !(generate_sequences_body_OK _ _ _ _ _ _ _ _ _ Hgen), !bind_OK_l.
      rewrite (IH (seqs0 ++ [s]) m1 p1), (IH ([] ++ [s]) m1 p1).
      destruct (for_each idx _ ([], m1, p1)) as [[[new m2] p2]|e]; [|reflexivity].
      simpl. by rewrite <- app_assoc.
    + unfold generate_sequences_body. by rewrite Hgen.
Qed.
End Composition.

(** X4. Generating M1 + M2 sequences is generating M1 sequences and then
    M2 more on the matrix and the stream as the first run left them: the
    first M1 sequences of a set do not depend on how many follow. *)
Theorem generate_sequences_app py_random N M1 M2 (m : matrix) p :
  (0 <= M1)%Z → (0 <= M2)%Z →
  generate_sequences py_random N (M1 + M2) m p
  = generate_sequences py_random N M1 m p
    ≫= (fun '(seqs1, m1, p1) =>
          generate_sequences py_random N M2 m1 p1
          ≫= (fun '(seqs2, m2, p2) => OK (seqs1 ++ seqs2, m2, p2))).
Proof.
  intros H1 H2. unfold generate_sequences, range. change (Z.to_nat 0) with 0.
  rewrite !Nat.sub_0_r, Z2Nat.inj_add, seq_app, for_each_app by done.
  destruct (for_each (seq 0 (Z.to_nat M1)) _ ([], m, p)) as [[[seqs1 m1] p1]|e];
    [|reflexivity].
  rewrite !bind_OK_l, generate_sequences_loop_prefix.
  by rewrite (generate_sequences_loop_index _ _ _ (seq 0 (Z.to_nat M2)))
    by (by rewrite !length_seq).
Qed.

Lemma generate_sequences_app_witness :
  generate_sequences py_example 3 (1 + 1) m_example 0
  = generate_sequences py_example 3 1 m_example 0
    ≫= (fun '(seqs1, m1, p1) =>
          generate_sequences py_example 3 1 m1 p1
          ≫= (fun '(seqs2, m2, p2) => OK (seqs1 ++ seqs2, m2, p2))).
Proof. apply (generate_sequences_app py_example 3 1 1 m_example 0); lia. Defined.

(** ** Frame and stream of a whole run *)

Lemma generate_sequences_loop_position py_random N (idx : list nat) :
  ∀ seqs0 m p seqs m' p',
  for_each idx (generate_sequences_body py_random N) (seqs0, m, p) = OK (seqs, m', p') →
  p' = p + length idx * S (Z.to_nat N - 2).
Proof.
  induction idx as [|i idx IH]; intros seqs0 m p seqs m' p' Hrun.
  - injection Hrun as _ _ <-. simpl. lia.
  - rewrite for_each_cons in Hrun.
    apply bind_OK in Hrun as ([[seqs1 m1] p1] & Hbody & Hrun).
    apply generate_sequences_body_position in Hbody as ->.
    apply IH in Hrun as ->. simpl. lia.
Qed.

(** X5. A run of [generate_sequences] with N >= 2 that returns has read
    exactly M * (N - 1) draws of the stream, has kept the shape of the
    matrix, and has left as it was every cell that is not a transition of
    one of the sequences returned. *)
Theorem generate_sequences_frame py_random N M (m : matrix) p seqs m' p' :
  (2 <= N)%Z → (0 <= M)%Z →
  generate_sequences py_random N M m p = OK (seqs, m', p') →
  Z.of_nat p' = (Z.of_nat p + M * (N - 1))%Z ∧
  shape m' = shape m ∧
  ∀ r c, (r, c) ∉ all_transitions seqs → cell m' r c = cell m r c.
Proof.
  intros HN HM H. split.
  - unfold generate_sequences in H.
    apply generate_sequences_loop_position in H as ->. rewrite range_length. nia.
  - apply (generate_sequences_keeps py_random
             (fun m1 ts => shape m1 = shape m ∧
                           ∀ r c, (r, c) ∉ ts → cell m1 r c = cell m r c)) in H;
      [exact H| |done].
    intros m1 ts r c k m2 [Hsh Hfr] _ Hre. split.
    + by rewrite (reinforced_shape _ _ _ _ _ Hre).
    + intros r' c' Hnot. rewrite <- Hfr by (intros Hin; apply Hnot, elem_of_app; by left).
      eapply reinforced_cell_ne; [exact Hre|]. intros [= -> ->].
      apply Hnot, elem_of_app. right. by left.
Qed.

Lemma generate_sequences_frame_witness :
  Z.of_nat 4 = (Z.of_nat 0 + 2 * (3 - 1))%Z ∧
  shape [[0; 3#2; 9#8]; [5#4; 0; 9#10]; [7#4; 4#10; 0]]%Q = shape m_example ∧
  ∀ r c, (r, c) ∉ all_transitions [[0; 1; 0]; [2; 0; 2]] →
    cell [[0; 3#2; 9#8]; [5#4; 0; 9#10]; [7#4; 4#10; 0]]%Q r c = cell m_example r c.
Proof.
  apply (generate_sequences_frame py_example 3 2 m_example 0);
    [lia | lia | vm_compute; reflexivity].
Defined.

(** ** Cells of the probability matrix *)

Lemma transitions_in_alphabet N s a b :
  in_alphabet N s → (a, b) ∈ transitions s → a < N ∧ b < N.
Proof.
  intros Hin Hab. apply list_elem_of_lookup in Hab as [i Hi].
  apply transitions_lookup in Hi as [Ha Hb]. unfold in_alphabet in Hin.
  rewrite Forall_lookup in Hin. eauto.
Qed.

Lemma elem_of_all_transitions sequences a b :
  (a, b) ∈ all_transitions sequences ↔ ∃ s, s ∈ sequences ∧ (a, b) ∈ transitions s.
Proof.
  unfold all_transitions. rewrite elem_of_concat. split.
  - intros (l & Hl & Hab). apply list_elem_of_fmap in Hl as (s & -> & Hs). eauto.
  - intros (s & Hs & Hab). exists (transitions s). split; [|exact Hab].
    by apply list_elem_of_fmap_2.
Qed.

Lemma all_transitions_in_alphabet N sequences a b :
  Forall (fun s => length s = N ∧ in_alphabet N s) sequences →
  (a, b) ∈ all_transitions sequences → a < N ∧ b < N.
Proof.
  intros Hall Hab. apply elem_of_all_transitions in Hab as (s & Hs & Hab).
  rewrite Forall_forall in Hall. destruct (Hall s Hs) as [_ Hin].
  by eapply transitions_in_alphabet.
Qed.

Lemma count_transitions_pos ts a b : 0 < count_transitions ts a b ↔ (a, b) ∈ ts.
Proof.
  unfold count_transitions. split.
  - intros H. destruct (filter _ ts) as [|t l] eqn:E; [simpl in H; lia|].
    assert (Ht : t ∈ filter (fun t => t = (a, b)) ts) by (rewrite E; by left).
    apply list_elem_of_filter in Ht as [-> Ht]. exact Ht.
  - intros H.
    assert (Ht : (a, b) ∈ filter (fun t => t = (a, b)) ts)
      by (by apply list_elem_of_filter).
    destruct (filter _ ts); [inversion Ht | simpl; lia].
Qed.

Lemma elem_of_le_sum_list (l : list nat) (x : nat) : x ∈ l → x ≤ sum_list l.
Proof.
  induction l as [|y l IH]; intros H; [inversion H|].
  apply elem_of_cons in H as [->|H]; simpl; [lia|]. apply IH in H. lia.
Qed.

Lemma count_le_row_total N ts a b :
  b < N → count_transitions ts a b ≤ row_total N ts a.
Proof.
  intros Hb. unfold row_total. apply elem_of_le_sum_list.
  apply list_elem_of_fmap. exists b. split; [reflexivity|].
  apply elem_of_seq. lia.
Qed.


Lemma probability_matrix_spec_cell N sequences a b :
  a < N → b < N →
  cell (probability_matrix_spec N sequences) a b
  = Some (fdiv (of_count (count_transitions (all_transitions sequences) a b))
               (of_count (row_total N (all_transitions sequences) a))).
Proof.
  intros Ha Hb. unfold cell, probability_matrix_spec.
  rewrite list_lookup_fmap, lookup_seq_lt by done. simpl.
  by rewrite list_lookup_fmap, lookup_seq_lt.
Qed.

Lemma probability_matrix_spec_square N sequences :
  square N (probability_matrix_spec N sequences).
Proof.
  unfold square, shape, probability_matrix_spec. rewrite <- list_fmap_compose.
  apply list_eq. intros a. rewrite list_lookup_fmap.
  destruct (decide (a < N)) as [Ha|Ha].
  - rewrite lookup_seq_lt, lookup_replicate_2 by done. simpl.
    by rewrite length_fmap, length_seq.
  - rewrite lookup_seq_ge by lia. symmetry. apply lookup_replicate_None. lia.
Qed.


Lemma quotient_of_counts_zero (c T : nat) :
  T ≠ 0 → (inject_Z (Z.of_nat c) / inject_Z (Z.of_nat T) == 0)%Q ↔ c = 0.
Proof.
  intros HT. pose proof (of_count_nonzero T HT) as Hnz. split.
  - intros H.
    assert (H0 : (inject_Z (Z.of_nat c) == 0)%Q).
    { rewrite <- (Qmult_div_r (inject_Z (Z.of_nat c)) _ Hnz), H. ring. }
    unfold Qeq, inject_Z in H0. simpl in H0. lia.
  - intros ->. change (inject_Z (Z.of_nat 0)) with 0%Q. by field.
Qed.





(** ** The run, end to end *)

(** What a run that reaches the statistics has computed. *)
Lemma compute_balanced_sequences_OK np_random py_random N M seqs t :
  compute_balanced_sequences np_random py_random N M = OK (seqs, t) →
  (2 <= N)%Z ∧ (1 <= M)%Z ∧ Z.of_nat (length seqs) = M ∧
  Forall (fun s => length s = Z.to_nat N ∧ in_alphabet (Z.to_nat N) s ∧ no_repeat s) seqs ∧
  t = probability_matrix_spec (Z.to_nat N) seqs ∧
  ∃ m0 q' m' p', initialize_markov_chain np_random N 0 = OK (m0, q') ∧
                 generate_sequences py_random N M m0 0 = OK (seqs, m', p').
Proof.
  unfold compute_balanced_sequences. intros H.
  apply bind_OK in H as ([m0 q'] & Hinit & H).
  apply bind_OK in H as ([[seqs' m'] p'] & Hgen & H).
  apply bind_OK in H as (t' & Hcalc & H). injection H as <- <-.
  pose proof (initialize_markov_chain_square _ _ _ _ _ Hinit) as Hsq.
  pose proof (initialize_markov_chain_diag_zero _ _ _ _ _ Hinit) as Hdz.
  pose proof (initialize_markov_chain_OK _ _ _ _ _ Hinit) as (HN0 & Hm0 & _).
  destruct (generate_sequences_OK _ _ _ _ _ _ _ _ Hdz Hgen) as (_ & _ & Hlen & Hall).
  assert (Hne : seqs' ≠ []) by (intros ->; discriminate).
  assert (HM : (1 <= M)%Z) by (destruct seqs'; [done | simpl in Hlen; lia]).
  assert (HN : (2 <= N)%Z).
  { destruct (Z.le_gt_cases 2 N) as [|Hsmall]; [done|]. exfalso.
    rewrite (initialize_markov_chain_small np_random N 0) in Hinit by lia.
    injection Hinit as <- _.
    rewrite (generate_sequences_first_raises _ _ _ _ _ ValueError HM) in Hgen;
      [discriminate | apply generate_sequence_zeros]. }
  assert (Hall' : Forall (fun s => length s = Z.to_nat N ∧ in_alphabet (Z.to_nat N) s
                                   ∧ no_repeat s) seqs').
  { eapply Forall_impl; [exact Hall|]. intros s (Hs & Hnr & Hin).
    repeat split; [lia | by apply Hin | exact Hnr]. }
  repeat split; try done; [lia| |eauto 10].
  rewrite (calculate_transition_probability_matrix_spec seqs' (Z.to_nat N)) in Hcalc.
  - by injection Hcalc.
  - exact Hne.
  - eapply Forall_impl; [exact Hall'|]. by intros s (? & ? & ?).
Qed.

(** X9. The probability matrix of a run has no self-transition: whenever
    the run reaches its end, each diagonal cell of the matrix it writes is
    zero, or NaN in the row of a symbol that never occurs as a non-final
    element. *)
Theorem run_diagonal_is_zero np_random py_random N M seqs t a :
  compute_balanced_sequences np_random py_random N M = OK (seqs, t) →
  (Z.of_nat a < N)%Z →
  cell t a a = Some NaN ∨ ∃ q, cell t a a = Some (Fin q) ∧ (q == 0)%Q.
Proof.
  intros H Ha. apply compute_balanced_sequences_OK in H
    as (HN & HM & Hlen & Hall & -> & _).
  rewrite probability_matrix_spec_cell by lia.
  assert (Hdiag : count_transitions (all_transitions seqs) a a = 0).
  { destruct (count_transitions _ a a) eqn:E; [reflexivity|]. exfalso.
    assert (Hin : (a, a) ∈ all_transitions seqs) by (apply count_transitions_pos; lia).
    apply elem_of_all_transitions in Hin as (s & Hs & Hin).
    rewrite Forall_forall in Hall. destruct (Hall s Hs) as (_ & _ & Hnr).
    unfold no_repeat in Hnr. rewrite Forall_forall in Hnr. by apply (Hnr _ Hin). }
  rewrite Hdiag.
  destruct (decide (row_total (Z.to_nat N) (all_transitions seqs) a = 0)) as [->|HT].
  - left. reflexivity.
  - right. eexists. split; [by rewrite fdiv_counts|].
    by apply quotient_of_counts_zero.
Qed.

Lemma run_diagonal_is_zero_witness :
  cell [[Fin (0 # 2); Fin (1 # 2); Fin (1 # 2)]; [Fin 1; Fin 0; Fin 0]; [Fin 1; Fin 0; Fin 0]] 1 1
    = Some NaN ∨
  ∃ q, cell [[Fin (0 # 2); Fin (1 # 2); Fin (1 # 2)]; [Fin 1; Fin 0; Fin 0]; [Fin 1; Fin 0; Fin 0]] 1 1
         = Some (Fin q) ∧ (q == 0)%Q.
Proof.
  apply (run_diagonal_is_zero np_example py_example 3 2 [[0; 1; 0]; [2; 0; 2]] _ 1);
    [vm_compute; reflexivity | lia].
Defined.

(** ** Ragged and out-of-range input of the statistics *)



Lemma for_each_ext {A S : Type} (l : list A) (body1 body2 : A → S → result S) (s : S) :
  (∀ x t, x ∈ l → body1 x t = body2 x t) →
  for_each l body1 s = for_each l body2 s.
Proof.
  revert s. induction l as [|x l IH]; intros s H; [reflexivity|].
  rewrite !for_each_cons, (H x s) by (by left).
  destruct (body2 x s) as [s'|e]; [|reflexivity].
  rewrite !bind_OK_l. apply IH. intros y t Hy. apply H. by right.
Qed.

Lemma for_each_fmap {A B S : Type} (f : A → B) (l : list A)
    (body : B → S → result S) (s : S) :
  for_each (f <$> l) body s = for_each l (fun x => body (f x)) s.
Proof.
  revert s. induction l as [|x l IH]; intros s; [reflexivity|].
  rewrite fmap_cons, !for_each_cons.
  destruct (body (f x) s) as [s'|e]; [|reflexivity]. rewrite !bind_OK_l. apply IH.
Qed.






(** The loop over a sequence reads its first N elements only. *)
Lemma count_sequence_take N s (t : fmatrix) :
  count_sequence N (take N s) t = count_sequence N s t.
Proof.
  unfold count_sequence. apply for_each_ext. intros i u Hi.
  unfold range in Hi. apply elem_of_seq in Hi.
  unfold getitem. by rewrite !lookup_take_lt by lia.
Qed.




Lemma calculate_take first rest :
  calculate_transition_probability_matrix (first :: (take (length first) <$> rest))
  = calculate_transition_probability_matrix (first :: rest).
Proof.
  unfold calculate_transition_probability_matrix.
  change (getitem (first :: (take (length first) <$> rest)) 0) with (OK first).
  change (getitem (first :: rest) 0) with (OK first). rewrite !bind_OK_l.
  rewrite !for_each_cons.
  destruct (count_sequence (length first) first (zeros (length first) (length first)))
    as [t|e]; [|reflexivity].
  rewrite !bind_OK_l, for_each_fmap.
  rewrite (for_each_ext rest _ (count_sequence (length first))); [reflexivity|].
  intros s u _. apply count_sequence_take.
Qed.

(** X10. The statistics read of every sequence only as many elements as
    the first sequence has: cutting every sequence of a non-empty set to
    that length changes neither the matrix returned nor the exception
    raised. *)
Theorem statistics_ignore_tails (sequences : list (list nat)) first :
  sequences !! 0 = Some first →
  calculate_transition_probability_matrix (take (length first) <$> sequences)
  = calculate_transition_probability_matrix sequences.
Proof.
  intros Hfirst. destruct sequences as [|first' rest]; [discriminate|].
  injection Hfirst as ->. rewrite fmap_cons, firstn_all.
  apply calculate_take.
Qed.

Lemma statistics_ignore_tails_witness :
  calculate_transition_probability_matrix (take (length [0; 1]) <$> [[0; 1]; [1; 0; 5; 7]])
  = calculate_transition_probability_matrix [[0; 1]; [1; 0; 5; 7]].
Proof. apply (statistics_ignore_tails [[0; 1]; [1; 0; 5; 7]] [0; 1]). reflexivity. Defined.



(** X12. Once the initializer has returned the matrix of a run with
    N >= 2 and M >= 1, the computation cannot fail: when the draws for the
    matrix are positive and no reinforcement adds a negative amount,
    lines 133-137 end without an exception with M sequences, each of N
    symbols of [0, N) without immediate repeat, and an N x N probability
    matrix. What the run then does with the file system is not covered. *)
Theorem computation_succeeds np_random py_random N M m0 q' :
  (∀ k, (0 < np_random k)%Q) → (∀ k, (0 <= py_random k)%Q) →
  (2 <= N)%Z → (1 <= M)%Z →
  initialize_markov_chain np_random N 0 = OK (m0, q') →
  ∃ seqs m' p' t,
    generate_sequences py_random N M m0 0 = OK (seqs, m', p') ∧
    calculate_transition_probability_matrix seqs = OK t ∧
    compute_balanced_sequences np_random py_random N M = OK (seqs, t) ∧
    Z.of_nat (length seqs) = M ∧
    Forall (fun s => length s = Z.to_nat N ∧ in_alphabet (Z.to_nat N) s ∧ no_repeat s)
      seqs ∧
    square (Z.to_nat N) t.
Proof.
  intros Hnp Hpy HN HM Hinit.
  destruct (generate_sequences_returns _ py_random N M _ _ _ 0 Hnp Hpy HN Hinit)
    as (seqs & m' & p' & Hgen).
  pose proof (initialize_markov_chain_square _ _ _ _ _ Hinit) as Hsq.
  pose proof (initialize_markov_chain_diag_zero _ _ _ _ _ Hinit) as Hdz.
  destruct (generate_sequences_OK _ _ _ _ _ _ _ _ Hdz Hgen) as (_ & _ & Hlen & Hall).
  assert (Hall' : Forall (fun s => length s = Z.to_nat N ∧ in_alphabet (Z.to_nat N) s
                                   ∧ no_repeat s) seqs).
  { eapply Forall_impl; [exact Hall|]. intros s (Hs & Hnr & Hin).
    repeat split; [lia | by apply Hin | exact Hnr]. }
  assert (Hcalc : calculate_transition_probability_matrix seqs
                  = OK (probability_matrix_spec (Z.to_nat N) seqs)).
  { apply calculate_transition_probability_matrix_spec.
    - intros ->. simpl in Hlen. lia.
    - eapply Forall_impl; [exact Hall'|]. by intros s (? & ? & ?). }
  exists seqs, m', p', (probability_matrix_spec (Z.to_nat N) seqs).
  split; [exact Hgen|]. split; [exact Hcalc|]. split.
  { unfold compute_balanced_sequences.
    rewrite Hinit, bind_OK_l. cbn beta iota.
    rewrite Hgen, bind_OK_l. cbn beta iota. by rewrite Hcalc. }
  split; [lia|]. split; [exact Hall'|].
  apply probability_matrix_spec_square.
Qed.

Lemma computation_succeeds_witness :
  ∃ seqs m' p' t,
    generate_sequences py_example 3 2 m_example 0 = OK (seqs, m', p') ∧
    calculate_transition_probability_matrix seqs = OK t ∧
    compute_balanced_sequences np_example py_example 3 2 = OK (seqs, t) ∧
    Z.of_nat (length seqs) = 2%Z ∧
    Forall (fun s => length s = Z.to_nat 3 ∧ in_alphabet (Z.to_nat 3) s ∧ no_repeat s)
      seqs ∧
    square (Z.to_nat 3) t.
Proof.
  apply (computation_succeeds np_example py_example 3 2 m_example 9);
    [intros k; apply np_example_open | intros k; apply py_example_bounds | lia | lia
    | vm_compute; reflexivity].
Defined.

(** ** Ties are broken in row-major order *)

Lemma head_filter_first {A : Type} (f : A → bool) (l : list A) (x : A) :
  head (List.filter f l) = Some x →
  ∃ i, l !! i = Some x ∧ ∀ j y, l !! j = Some y → f y = true → i ≤ j.
Proof.
  induction l as [|a l IH]; [discriminate|]. simpl.
  destruct (f a) eqn:E.
  - intros [= ->]. exists 0. split; [reflexivity | intros; lia].
  - intros H. destruct (IH H) as (i & Hi & Hmin). exists (S i). split; [exact Hi|].
    intros [|j] y Hy Hfy.
    + injection Hy as ->. congruence.
    + apply le_n_S. by eapply Hmin.
Qed.

Lemma enumerate_row_lookup (row : list Q) (i j : nat) (x : Q) :
  enumerate_row row !! i = Some (j, x) → j = i ∧ row !! i = Some x.
Proof.
  unfold enumerate_row. rewrite list_lookup_imap.
  destruct (row !! i); simpl; [|discriminate]. by intros [= <- <-].
Qed.

(** Along the enumeration of a matrix the coordinates increase in
    row-major order. *)
Lemma enumerate_from_order (m : matrix) : ∀ k i j r c x r' c' y,
  i ≤ j →
  concat (imap (fun a row => (fun jx => ((k + a, jx.1), jx.2)) <$> enumerate_row row) m)
    !! i = Some ((r, c), x) →
  concat (imap (fun a row => (fun jx => ((k + a, jx.1), jx.2)) <$> enumerate_row row) m)
    !! j = Some ((r', c'), y) →
  k ≤ r ∧ (r < r' ∨ (r = r' ∧ c ≤ c')).
Proof.
  induction m as [|row m IH]; intros k i j r c x r' c' y Hij Hi Hj; [discriminate|].
  rewrite imap_cons in Hi, Hj. cbn [concat] in Hi, Hj.
  rewrite (imap_ext _ (fun a row => (fun jx => ((S k + a, jx.1), jx.2))
                                      <$> enumerate_row row)) in Hi, Hj
    by (intros a row' _; simpl; by rewrite Nat.add_succ_r).
  set (tagged := (fun jx : nat * Q => ((k + 0, jx.1), jx.2)) <$> enumerate_row row) in *.
  assert (Htag : ∀ a r0 c0 z, tagged !! a = Some ((r0, c0), z) → r0 = k ∧ c0 = a).
  { intros a r0 c0 z Ha. unfold tagged in Ha. rewrite list_lookup_fmap in Ha.
    destruct (enumerate_row row !! a) as [[b w]|] eqn:E; [|discriminate].
    apply enumerate_row_lookup in E as [-> _]. simpl in Ha.
    injection Ha as <- <- _. lia. }
  apply lookup_app_Some in Hi as [Hi|[Hli Hi]];
    apply lookup_app_Some in Hj as [Hj|[Hlj Hj]].
  - destruct (Htag _ _ _ _ Hi) as [-> ->]. destruct (Htag _ _ _ _ Hj) as [-> ->].
    split; [lia|]. right. lia.
  - destruct (Htag _ _ _ _ Hi) as [-> ->].
    destruct (IH (S k) _ _ _ _ _ _ _ _ (Nat.le_refl _) Hj Hj) as [Hk _].
    split; [lia|]. left. lia.
  - apply lookup_lt_Some in Hj. lia.
  - destruct (IH (S k) (i - length tagged) (j - length tagged) r c x r' c' y) as [Hk Hord];
      [lia | exact Hi | exact Hj |].
    split; [lia | exact Hord].
Qed.

Lemma enumerate_order (m : matrix) i j r c x r' c' y :
  i ≤ j → enumerate m !! i = Some ((r, c), x) → enumerate m !! j = Some ((r', c'), y) →
  r < r' ∨ (r = r' ∧ c ≤ c').
Proof.
  intros Hij Hi Hj.
  by destruct (enumerate_from_order m 0 i j r c x r' c' y Hij Hi Hj).
Qed.

(** X14. The seed search returns the cell that holds the least value
    among the nonzero cells of the matrix and, among the cells that hold
    that value, comes first in row-major order. *)
Theorem seed_selects_first_least_nonzero py_random (m : matrix) p s m' p' :
  seed py_random m p = OK (s, m', p') →
  ∃ r c x, s = [r; c] ∧ cell m r c = Some x ∧ is_nonzero x = true ∧
    (∀ r' c' y, cell m r' c' = Some y → is_nonzero y = true → (x <= y)%Q) ∧
    (∀ r' c' y, cell m r' c' = Some y → (y == x)%Q → r < r' ∨ (r = r' ∧ c ≤ c')).
Proof.
  intros H.
  destruct (seed_selects_least_nonzero _ _ _ _ _ _ H) as (r & c & x & -> & Hx & Hnz & Hle).
  exists r, c, x. repeat split; try done.
  unfold seed in H. apply bind_OK in H as (v & Hmin & H).
  apply bind_OK in H as ([r0 c0] & Hfirst & H). apply bind_OK in H as (m1 & _ & H).
  simpl in H. injection H as -> -> _ _.
  apply head_getitem in Hfirst. unfold argwhere in Hfirst.
  destruct (List.filter _ (enumerate m)) as [|[[r1 c1] x1] l] eqn:E; [discriminate|].
  simpl in Hfirst. injection Hfirst as -> ->.
  assert (Hhead : head (List.filter (fun cx => Qeq_bool cx.2 v) (enumerate m))
                  = Some ((r, c), x1)) by (by rewrite E).
  apply head_filter_first in Hhead as (i & Hi & Hmin_i).
  pose proof Hi as Hx1. apply list_elem_of_lookup_2, elem_of_enumerate, cell_Some in Hx1.
  rewrite Hx in Hx1. injection Hx1 as <-.
  assert (Hxv : Qeq_bool x v = true).
  { assert (Hin : ((r, c), x) ∈ List.filter (fun cx => Qeq_bool cx.2 v) (enumerate m))
      by (rewrite E; by left).
    by apply elem_of_filter_b in Hin as [_ Hin]. }
  intros r' c' y Hy Hyx.
  apply cell_Some, elem_of_enumerate, list_elem_of_lookup in Hy as [j Hj].
  apply (enumerate_order m i j r c x r' c' y); [|exact Hi|exact Hj].
  apply (Hmin_i j _ Hj). simpl. apply Qeq_bool_iff. rewrite Hyx.
  by apply Qeq_bool_iff.
Qed.

(** X15. An iteration of the loop appends the column that holds the least
    value among the nonzero cells of the row of the element it reads and,
    among the columns that hold that value, is the least. *)
Theorem extend_selects_first_least_nonzero py_random i s (m : matrix) p s' m' p' :
  extend py_random i (s, m, p) = OK (s', m', p') →
  ∃ prev c x, s !! (i - 1) = Some prev ∧ s' = s ++ [c] ∧
    cell m prev c = Some x ∧ is_nonzero x = true ∧
    (∀ c' y, cell m prev c' = Some y → is_nonzero y = true → (x <= y)%Q) ∧
    (∀ c' y, cell m prev c' = Some y → (y == x)%Q → c ≤ c').
Proof.
  intros H.
  destruct (extend_selects_least_nonzero _ _ _ _ _ _ _ _ H)
    as (prev & c & x & Hprev & -> & Hx & Hnz & Hle).
  exists prev, c, x. repeat split; try done.
  unfold extend in H.
  apply bind_OK in H as (prev0 & Hprev0%getitem_OK & H).
  rewrite Hprev in Hprev0. injection Hprev0 as <-.
  apply bind_OK in H as (row & Hrow%getitem_OK & H).
  apply bind_OK in H as (v & Hmin & H). apply bind_OK in H as (c0 & Hfirst & H).
  apply bind_OK in H as (prev' & _ & H). apply bind_OK in H as (m1 & _ & H).
  injection H as Hs _ _. apply app_inj_tail in Hs as [_ ->].
  apply head_getitem in Hfirst. unfold argwhere_row in Hfirst.
  destruct (List.filter _ (enumerate_row row)) as [|[c1 x1] l] eqn:E; [discriminate|].
  simpl in Hfirst. injection Hfirst as ->.
  assert (Hhead : head (List.filter (fun jx => Qeq_bool jx.2 v) (enumerate_row row))
                  = Some (c, x1)) by (by rewrite E).
  apply head_filter_first in Hhead as (k & Hk & Hmin_k).
  pose proof (enumerate_row_lookup _ _ _ _ Hk) as [-> Hx1].
  assert (Hcell : cell m prev k = Some x1) by (apply cell_Some; eauto).
  rewrite Hx in Hcell. injection Hcell as <-.
  assert (Hxv : Qeq_bool x v = true).
  { assert (Hin : (k, x) ∈ List.filter (fun jx => Qeq_bool jx.2 v) (enumerate_row row))
      by (rewrite E; by left).
    by apply elem_of_filter_b in Hin as [_ Hin]. }
  intros c' y Hy Hyx. apply cell_Some in Hy as (row' & Hrow' & Hy).
  rewrite Hrow in Hrow'. injection Hrow' as <-.
  apply (Hmin_k c' (c', y)).
  - unfold enumerate_row. by rewrite list_lookup_imap, Hy.
  - simpl. apply Qeq_bool_iff. rewrite Hyx. by apply Qeq_bool_iff.
Qed.

Lemma seed_selects_first_least_nonzero_witness :
  ∃ r c x, [0; 2] = [r; c] ∧ cell m_tie r c = Some x ∧ is_nonzero x = true ∧
    (∀ r' c' y, cell m_tie r' c' = Some y → is_nonzero y = true → (x <= y)%Q) ∧
    (∀ r' c' y, cell m_tie r' c' = Some y → (y == x)%Q → r < r' ∨ (r = r' ∧ c ≤ c')).
Proof.
  eapply (seed_selects_first_least_nonzero py_example m_tie 0 [0; 2] _ _).
  vm_compute. reflexivity.
Defined.

Lemma extend_selects_first_least_nonzero_witness :
  ∃ prev c x, [2; 1] !! (2 - 1) = Some prev ∧ [2; 1; 0] = [2; 1] ++ [c] ∧
    cell m_tie prev c = Some x ∧ is_nonzero x = true ∧
    (∀ c' y, cell m_tie prev c' = Some y → is_nonzero y = true → (x <= y)%Q) ∧
    (∀ c' y, cell m_tie prev c' = Some y → (y == x)%Q → c ≤ c').
Proof.
  eapply (extend_selects_first_least_nonzero py_example 2 [2; 1] m_tie 0 [2; 1; 0] _ _).
  vm_compute. reflexivity.
Defined.

(** ** The matrix written by a run *)

Lemma probability_matrix_spec_row N sequences a :
  a < N →
  probability_matrix_spec N sequences !! a
  = Some ((fun b => fdiv (of_count (count_transitions (all_transitions sequences) a b))
                         (of_count (row_total N (all_transitions sequences) a)))
          <$> seq 0 N).
Proof.
  intros Ha. unfold probability_matrix_spec.
  by rewrite list_lookup_fmap, lookup_seq_lt.
Qed.

Lemma probability_matrix_spec_row_NaN N sequences a :
  a < N → row_total N (all_transitions sequences) a = 0 →
  probability_matrix_spec N sequences !! a = Some (replicate N NaN).
Proof.
  intros Ha HT. rewrite probability_matrix_spec_row by done. f_equal.
  rewrite HT. apply list_eq. intros b. rewrite list_lookup_fmap.
  destruct (decide (b < N)) as [Hb|Hb].
  - rewrite lookup_seq_lt, lookup_replicate_2 by done. simpl.
    pose proof (count_le_row_total N (all_transitions sequences) a b Hb) as Hle.
    rewrite HT in Hle.
    by replace (count_transitions (all_transitions sequences) a b) with 0 by lia.
  - rewrite lookup_seq_ge by lia. symmetry. apply lookup_replicate_None. lia.
Qed.

(** X16. The matrix that a run computes is N x N and row-stochastic,
    within floating tolerance, up to its degenerate rows. Each row either
    holds finite quotients whose sum, when each is rounded and they are
    added in floating point with a relative error of at most [u] at each
    step, lies between [(1 - u)^(N+1)] and [(1 + u)^(N+1)]; or, when its
    symbol is never followed by another in the generated set, it holds
    NaN in every column. *)
Theorem run_matrix_row_stochastic np_random py_random N M seqs t a :
  compute_balanced_sequences np_random py_random N M = OK (seqs, t) →
  (Z.of_nat a < N)%Z →
  square (Z.to_nat N) t ∧
  ∃ row, t !! a = Some row ∧
    ((∃ qs,
        row = Fin <$> qs ∧ length qs = Z.to_nat N ∧
        ∀ (u : Q) (fl : Q → Q) (s : Q),
          (0 <= u)%Q → (u <= 1)%Q → rounding_within u fl →
          float_sum fl (fl <$> qs) s →
          (Qpow (1 - u) (S (Z.to_nat N)) <= s)%Q ∧
          (s <= Qpow (1 + u) (S (Z.to_nat N)))%Q) ∨
     (row = replicate (Z.to_nat N) NaN ∧ ∀ b, (a, b) ∉ all_transitions seqs)).
Proof.
  intros H Ha. apply compute_balanced_sequences_OK in H
    as (HN & HM & Hlen & Hall & -> & _).
  split; [apply probability_matrix_spec_square|].
  destruct (decide (row_total (Z.to_nat N) (all_transitions seqs) a = 0)) as [HT|HT].
  - exists (replicate (Z.to_nat N) NaN).
    split; [apply probability_matrix_spec_row_NaN; [lia | exact HT]|].
    right. split; [reflexivity|]. intros b Hin.
    assert (Hb : b < Z.to_nat N).
    { eapply (all_transitions_in_alphabet (Z.to_nat N) seqs a b); [|exact Hin].
      eapply Forall_impl; [exact Hall|]. by intros s (? & ? & ?). }
    pose proof (count_le_row_total (Z.to_nat N) (all_transitions seqs) a b Hb).
    apply count_transitions_pos in Hin. lia.
  - eexists. split; [apply probability_matrix_spec_row; lia|].
    left. by apply probability_row_sums_to_one.
Qed.

Lemma run_matrix_row_stochastic_witness :
  square (Z.to_nat 3)
    [[Fin (0 # 2); Fin (1 # 2); Fin (1 # 2)]; [Fin 1; Fin 0; Fin 0]; [Fin 1; Fin 0; Fin 0]] ∧
  ∃ row,
    [[Fin (0 # 2); Fin (1 # 2); Fin (1 # 2)]; [Fin 1; Fin 0; Fin 0]; [Fin 1; Fin 0; Fin 0]] !! 0
      = Some row ∧
    ((∃ qs,
        row = Fin <$> qs ∧ length qs = Z.to_nat 3 ∧
        ∀ (u : Q) (fl : Q → Q) (s : Q),
          (0 <= u)%Q → (u <= 1)%Q → rounding_within u fl →
          float_sum fl (fl <$> qs) s →
          (Qpow (1 - u) (S (Z.to_nat 3)) <= s)%Q ∧
          (s <= Qpow (1 + u) (S (Z.to_nat 3)))%Q) ∨
     (row = replicate (Z.to_nat 3) NaN ∧
      ∀ b, (0, b) ∉ all_transitions [[0; 1; 0]; [2; 0; 2]])).
Proof.
  apply (run_matrix_row_stochastic np_example py_example 3 2 [[0; 1; 0]; [2; 0; 2]] _ 0);
    [vm_compute; reflexivity | lia].
Defined.

(** ** Reinforcement never lowers a cell *)

Lemma reinforced_never_lowers m r c d m' r' c' x :
  (0 <= d)%Q → reinforced m r c d m' → cell m r' c' = Some x →
  ∃ y, cell m' r' c' = Some y ∧ (x <= y)%Q.
Proof.
  intros Hd Hre Hx. destruct (decide ((r', c') = (r, c))) as [[= -> ->]|Hne].
  - destruct (reinforced_cell_eq _ _ _ _ _ Hre) as (v & Hv & Hv').
    rewrite Hx in Hv. injection Hv as <-. eexists. split; [exact Hv'|].
    pose proof (Qle_ceiling x). unfold ceil. lra.
  - exists x. split; [|apply Qle_refl].
    by rewrite (reinforced_cell_ne _ _ _ _ _ _ _ Hre Hne).
Qed.

(** X17. With draws that are not negative, generation never lowers a
    cell of the matrix: when [generate_sequences] returns, every cell holds
    at least the value it held before the run. *)
Theorem generate_sequences_never_lowers py_random N M (m : matrix) p seqs m' p' r c x :
  (∀ k, (0 <= py_random k)%Q) →
  generate_sequences py_random N M m p = OK (seqs, m', p') →
  cell m r c = Some x →
  ∃ y, cell m' r c = Some y ∧ (x <= y)%Q.
Proof.
  intros Hpy H Hx.
  set (I := fun (m1 : matrix) (_ : list (nat * nat)) =>
              ∀ r c x, cell m r c = Some x → ∃ y, cell m1 r c = Some y ∧ (x <= y)%Q).
  assert (Hstep : ∀ m1 ts r1 c1 k m2,
            I m1 ts → least_in_row m1 r1 c1 → reinforced m1 r1 c1 (py_random k) m2 →
            I m2 (ts ++ [(r1, c1)])).
  { intros m1 ts r1 c1 k m2 HI _ Hre r2 c2 x2 Hx2.
    destruct (HI r2 c2 x2 Hx2) as (y & Hy & Hxy).
    destruct (reinforced_never_lowers _ _ _ _ _ r2 c2 y (Hpy k) Hre Hy) as (z & Hz & Hyz).
    exists z. split; [exact Hz | by eapply Qle_trans]. }
  assert (Hinit : I m []).
  { intros r2 c2 x2 Hx2. exists x2. split; [exact Hx2 | apply Qle_refl]. }
  exact (generate_sequences_keeps py_random I Hstep N M m p seqs m' p' Hinit H r c x Hx).
Qed.

Lemma generate_sequences_never_lowers_witness :
  ∃ y, cell [[0; 3#2; 9#8]; [5#4; 0; 9#10]; [7#4; 4#10; 0]]%Q 0 2 = Some y ∧
       (5 # 10 <= y)%Q.
Proof.
  apply (generate_sequences_never_lowers py_example 3 2 m_example 0
           [[0; 1; 0]; [2; 0; 2]] _ 4 0 2 (5 # 10));
    [intros k; apply py_example_bounds | vm_compute; reflexivity | reflexivity].
Defined.
